(** * aelist: the index, the filter/selection engine and the path resolver

    A shallow embedding of [aelist.c].  The process-wide variables of the
    program ([ev], [evsiz], [last], [pv], [psiz], [nprompt], [mode],
    [Sflag]) are threaded explicitly; the array [ev] is a list read and
    written by index, and the pointer [last] is either null ([None]) or
    the index of the slot of [ev] it points at ([Some m]), so that the
    store through [*last] is a store into [ev] itself. *)

From Stdlib Require Import ZArith QArith Qround String Ascii Lia.
From stdpp Require Import base list.

Local Open Scope string_scope.
Local Open Scope Z_scope.

(** ** Machine integers *)

(** [size_t] is 64 bits wide; arithmetic on it wraps, and so does the
    conversion of a signed value to it. *)
Definition SIZE_WIDTH : Z := 64.

Definition size_t (z : Z) : Z := z mod 2 ^ SIZE_WIDTH.

(** The largest [int], of 32 bits. *)
Definition INT_MAX : Z := 2147483647.

(** ** C strings

    A [string] holds the bytes that precede the terminating NUL. *)

(** A byte as an [unsigned char]. *)
Definition byte_of (c : ascii) : Z := Z.of_N (N_of_ascii c).

(** [strcmp]: the sign of the difference of the first pair of bytes that
    differ (the end of a string reads as the NUL byte, below every other). *)
Fixpoint strcmp (a b : string) : Z :=
  match a, b with
  | EmptyString, EmptyString => 0
  | EmptyString, String _ _ => -1
  | String _ _, EmptyString => 1
  | String c a', String d b' =>
      if (byte_of c =? byte_of d) then strcmp a' b'
      else if (byte_of c <? byte_of d) then -1 else 1
  end.

(** Does [hay] start with the bytes of [needle]? *)
Fixpoint starts_with (needle hay : string) : bool :=
  match needle, hay with
  | EmptyString, _ => true
  | String _ _, EmptyString => false
  | String c n', String d h' => (byte_of c =? byte_of d) && starts_with n' h'
  end.

(** [strstr]: a pointer to the first occurrence of [needle] in [hay] (the
    suffix of [hay] that starts there), or null. *)
Fixpoint strstr (hay needle : string) : option string :=
  if starts_with needle hay then Some hay
  else match hay with
       | EmptyString => None
       | String _ h' => strstr h' needle
       end.

(** [snprintf(dst, size, "%s", s)]: at most [size - 1] bytes of [s] are
    stored, then the NUL.  [truncate n s] is the first [n] bytes of [s]. *)
Fixpoint truncate (n : nat) (s : string) : string :=
  match n, s with
  | O, _ => EmptyString
  | _, EmptyString => EmptyString
  | S n', String c s' => String c (truncate n' s')
  end.

Definition snprintf_s (size : nat) (s : string) : string :=
  truncate (Nat.pred size) s.

(** ** bytesfmt *)

(** [(double)n] for a [size_t]: the nearest number with a 53-bit
    significand, ties to even.  The result is again an integer. *)
Definition double_of_size_t (n : Z) : Z :=
  if n <? 2 ^ 53 then n
  else
    let e := Z.log2 n - 52 in
    let q := n / 2 ^ e in
    let r := n mod 2 ^ e in
    let half := 2 ^ (e - 1) in
    let up := (half <? r) || ((r =? half) && Z.odd q) in
    (if up then q + 1 else q) * 2 ^ e.

(** The loop [for (n = 0; c >= 1024 && n < 6; n++) c /= 1024;].  Dividing
    a double of this range by 1024 only lowers its exponent, so [c] is the
    exact quotient; [k] counts the iterations that are left before [n]
    reaches 6. *)
Fixpoint bytesfmt_loop (k : nat) (c : Q) (n : Z) : Q * Z :=
  match k with
  | O => (c, n)
  | S k' =>
      if Qle_bool (inject_Z 1024) c && (n <? 6)
      then bytesfmt_loop k' (c / inject_Z 1024)%Q (n + 1)
      else (c, n)
  end.

(** The table [units] of [bytesfmt]. *)
Definition units : list string :=
  ["B"; "KiB"; "MiB"; "GiB"; "TiB"; "PiB"; "EiB"].

(** The character of the decimal digit [d]. *)
Definition digit (d : Z) : ascii := ascii_of_N (Z.to_N (48 + d)).

(** The decimal digits of a non-negative integer, most significant first;
    [k] bounds the number of digits. *)
Fixpoint utoa (k : nat) (z : Z) (acc : string) : string :=
  match k with
  | O => acc
  | S k' =>
      let acc' := String (digit (z mod 10)) acc in
      if z / 10 =? 0 then acc' else utoa k' (z / 10) acc'
  end.

(** Round to the nearest integer, ties to even. *)
Definition round_half_even (x : Q) : Z :=
  let f := Qfloor x in
  let d := (x - inject_Z f)%Q in
  match (d ?= 1 # 2)%Q with
  | Lt => f
  | Gt => f + 1
  | Eq => if Z.even f then f else f + 1
  end.

(** ["%.2f"] of a non-negative double: the value correctly rounded to two
    decimals ([h] is the number of hundredths), printed as the integer
    part, a point and two digits. *)
Definition fmt_2f (c : Q) : string :=
  let h := round_half_even (c * inject_Z 100)%Q in
  utoa 20 (h / 100)
    ("." ++ String (digit (h / 10 mod 10)) (String (digit (h mod 10)) "")).

(** The value of [c] and of the unit index [n] when the loop of [bytesfmt]
    is left. *)
Definition bytesfmt_scale (n : Z) : Q * Z :=
  bytesfmt_loop 6 (inject_Z (double_of_size_t n)) 0.

(** [bytesfmt(n)]: the contents of the 32-byte buffer [fmt] it returns. *)
Definition bytesfmt (n : Z) : string :=
  let '(c, i) := bytesfmt_scale n in
  snprintf_s 32 (fmt_2f c ++ " " ++ default "" (units !! Z.to_nat i)).

(** ** The index and the selection *)

(** [exe_t]: an executable file. *)
Record exe_t := { name : string; path : string; siz : Z }.

(** The display modes. *)
Inductive mode_t := MODESHORT | MODELINE | MODELONG.

(** The display cap when [-n] is not given. *)
Definition DEFAULTNPROMPT : Z := 30.

(** The number of slots of [pv]. *)
Definition MAXPATHS : Z := 512.

(** The options that [search] reads: [mode], [nprompt] and whether
    [Sflag] is non-zero. *)
Record config := { mode : mode_t; nprompt : Z; Sflag : bool }.

(** The globals that [search] reads and writes: the array [ev] (of
    [evsiz] records) and the pointer [last] into it. *)
Record globals := { ev : list exe_t; last : option nat }.

(** The number of records of the index. *)
Definition evsiz (g : globals) : nat := length (ev g).

(** What a run of C code comes to: it returns; or it ends the process
    through [finish(0)], after the diagnostic given (a fatal error); or it
    dereferences a null or out-of-range pointer (undefined behaviour; in
    practice the process dies on a segmentation fault). *)
Inductive outcome (A : Type) : Type :=
  | Done (a : A)
  | Fatal (msg : string)
  | Fault.
Arguments Done {A} a.
Arguments Fatal {A} msg.
Arguments Fault {A}.

#[global] Instance outcome_bind : MBind outcome := λ A B f x,
  match x with
  | Done a => f a
  | Fatal msg => Fatal msg
  | Fault => Fault
  end.

(** [ev[n]] *)
Definition load (l : list exe_t) (n : nat) : outcome exe_t :=
  match l !! n with
  | Some r => Done r
  | None => Fault
  end.

(** [*p = r] for a pointer [p] into [ev] *)
Definition store (l : list exe_t) (p : option nat) (r : exe_t) : outcome (list exe_t) :=
  match p with
  | Some m => if decide (m < length l)%nat then Done (<[m := r]> l) else Fault
  | None => Fault
  end.

(** [*p] *)
Definition deref (l : list exe_t) (p : option nat) : outcome exe_t :=
  match p with
  | Some m => load l m
  | None => Fault
  end.

(** The record the launcher would start: [*last], if [last] is set. *)
Definition selected (g : globals) : option exe_t :=
  match last g with
  | Some m => ev g !! m
  | None => None
  end.

(** What [search] puts on the screen, call by call: the summary line
    [exec <path> (<size>) <sum>], the rule, a name of the list, a cleared
    row.  Saving and restoring the cursor is left out. *)
Inductive draw :=
  | DSummary (row : Z) (target : string) (size : string) (sum : Z)
  | DHline (row : Z)
  | DName (row : Z) (nm : string)
  | DClear (row : Z).

(** The first loop of [search]:
    [n = sum = evsiz; while (n--) if (!strstr(ev[n].name, in)) --sum;] *)
Fixpoint count_loop (in_ : string) (l : list exe_t) (n : nat) (sum : Z) : outcome Z :=
  match n with
  | O => Done sum
  | S n' =>
      r ← load l n';
      count_loop in_ l n'
        (match strstr (name r) in_ with
         | Some _ => sum
         | None => size_t (sum - 1)
         end)
  end.

(** The locals of [search] that live across iterations of its second
    loop, with the globals it writes and the screen. *)
Record frame := {
  glob : globals;
  loc_s : bool;
  loc_fi : Z;
  screen : list draw
}.

(** [(Sflag) ? 0 : 1], the row of the summary line. *)
Definition summary_row (cfg : config) : Z := if Sflag cfg then 0 else 1.

(** [(Sflag) ? 2 : 3], the row of the rule, above the list of names. *)
Definition list_row (cfg : config) : Z := if Sflag cfg then 2 else 3.

(** One iteration of [for (n = 0; n < evsiz && fi <= nprompt; n++)]. *)
Definition search_body (cfg : config) (in_ : string) (sum : Z) (n : nat)
    (st : frame) : outcome frame :=
  (* if (!strcmp(ev[n].name, in)) { *last = ev[n]; s = 1; } *)
  r ← load (ev (glob st)) n;
  st1 ← (if strcmp (name r) in_ =? 0 then
            l' ← store (ev (glob st)) (last (glob st)) r;
            Done {| glob := {| ev := l'; last := last (glob st) |};
                    loc_s := true; loc_fi := loc_fi st; screen := screen st |}
          else Done st);
  (* if (strstr(ev[n].name, in)) { ... } *)
  r1 ← load (ev (glob st1)) n;
  match strstr (name r1) in_ with
  | None => Done st1
  | Some _ =>
      (* if (!s) last = &ev[n]; *)
      let g2 := if loc_s st1 then glob st1
                else {| ev := ev (glob st1); last := Some n |} in
      (* mvprintw(..., last->path, bytesfmt(ev[n].siz), sum) *)
      scr3 ← (match mode cfg with
               | MODELONG | MODESHORT =>
                   t ← deref (ev g2) (last g2);
                   Done (screen st1 ++
                         [DSummary (summary_row cfg) (path t) (bytesfmt (siz r1)) sum])%list
               | MODELINE => Done (screen st1)
               end);
      (* mvhline(...); mvprintw(fi + ..., 0, "%s\n", ev[n].name) *)
      let scr4 := match mode cfg with
                  | MODELONG =>
                      (scr3 ++ [DHline (list_row cfg);
                                DName (size_t (loc_fi st1 + list_row cfg)) (name r1)])%list
                  | _ => scr3
                  end in
      (* ++fi *)
      Done {| glob := g2; loc_s := loc_s st1;
              loc_fi := size_t (loc_fi st1 + 1); screen := scr4 |}
  end.

(** The second loop of [search], from index [n] on; [k] is [evsiz - n].
    [fi <= nprompt] compares a [size_t] with an [int], which is converted
    to [size_t] first. *)
Fixpoint search_loop (cfg : config) (in_ : string) (sum : Z) (k n : nat)
    (st : frame) : outcome frame :=
  match k with
  | O => Done st
  | S k' =>
      if loc_fi st <=? size_t (nprompt cfg) then
        st' ← search_body cfg in_ sum n st;
        search_loop cfg in_ sum k' (S n) st'
      else Done st
  end.

(** [while (fi <= nprompt) { move(fi++ + ..., 0); clrtoeol(); }]: the rows
    below the last name are cleared. *)
Definition clear_rows (cfg : config) (fi : Z) : list draw :=
  (fun i => DClear (size_t (i + list_row cfg))) <$>
    seqZ fi (size_t (nprompt cfg) + 1 - fi).

(** The match count that the first loop leaves in [sum]. *)
Definition matchCount (in_ : string) (g : globals) : outcome Z :=
  count_loop in_ (ev g) (evsiz g) (size_t (Z.of_nat (evsiz g))).

(** The second loop is entered with [fi = 1] and [s = 0]. *)
Definition entry (g : globals) : frame :=
  {| glob := g; loc_s := false; loc_fi := 1; screen := [] |}.

(** [search(in)]: the match count [sum], the globals and the screen
    output it leaves. *)
Definition search (cfg : config) (in_ : string) (g : globals)
    : outcome (Z * globals * list draw) :=
  sum ← matchCount in_ g;
  st ← search_loop cfg in_ sum (evsiz g) 0 (entry g);
  Done (sum, glob st, (screen st ++ clear_rows cfg (loc_fi st))%list).

(** ** The search-path resolver *)

(** The array [pv] has [MAXPATHS] slots, null until written. *)
Abbreviation pv_t := (list (option string)).

(** [pv] when the program starts. *)
Definition pv_init : pv_t := replicate (Z.to_nat MAXPATHS) None.

(** Is the byte [c] one of the bytes of [delim]? *)
Fixpoint is_delim (delim : string) (c : ascii) : bool :=
  match delim with
  | EmptyString => false
  | String d delim' => (byte_of c =? byte_of d) || is_delim delim' c
  end.

(** [s + strspn(s, delim)] *)
Fixpoint skip_delims (delim s : string) : string :=
  match s with
  | EmptyString => EmptyString
  | String c s' => if is_delim delim c then skip_delims delim s' else s
  end.

(** The token that starts at [s], up to the first delimiter or the end,
    and what [strtok] keeps for its next call: the text after that
    delimiter (which it overwrites with NUL), or the empty end. *)
Fixpoint span_token (delim s : string) : string * string :=
  match s with
  | EmptyString => (EmptyString, EmptyString)
  | String c s' =>
      if is_delim delim c then (EmptyString, s')
      else let '(t, rest) := span_token delim s' in (String c t, rest)
  end.

(** [strtok] on the text [s] (its argument, or what the previous call
    kept): the next token, or null, and the text kept. *)
Definition strtok (s delim : string) : option string * string :=
  match skip_delims delim s with
  | EmptyString => (None, EmptyString)
  | s1 => let '(t, rest) := span_token delim s1 in (Some t, rest)
  end.

(** The loop of [parsepath]; [k] bounds the number of iterations, and
    [None] says the bound was reached. *)
Fixpoint parsepath_loop (k : nat) (token : option string) (kept : string)
    (pv : pv_t) (psiz : Z) : option (outcome (pv_t * Z)) :=
  match token with
  | None => Some (Done (pv, psiz))
  | Some t =>
      match k with
      | O => None
      | S k' =>
          (* pv[psiz++] = token; *)
          if decide (Z.to_nat psiz < length pv)%nat then
            let pv' := <[Z.to_nat psiz := Some t]> pv in
            let psiz' := size_t (psiz + 1) in
            if MAXPATHS <=? psiz' then Some (Done (pv', psiz'))
            else
              let '(token', kept') := strtok kept ":" in
              parsepath_loop k' token' kept' pv' psiz'
          else Some Fault
      end
  end.

(** [parsepath()], with the value of [getenv("PATH")]: null when the
    variable is unset, and the first call of [strtok] with a null string
    is undefined. *)
Definition parsepath (PATH : option string) (pv : pv_t) (psiz : Z)
    : option (outcome (pv_t * Z)) :=
  match PATH with
  | None => Some Fault
  | Some p =>
      let '(token, kept) := strtok p ":" in
      parsepath_loop (S (String.length p)) token kept pv psiz
  end.

(** [ptr = pv; while (c--) *ptr++ = *av++;] *)
Fixpoint copy_args (av : list string) (n : nat) (pv : pv_t) : outcome pv_t :=
  match av with
  | [] => Done pv
  | a :: av' =>
      if decide (n < length pv)%nat
      then copy_args av' (S n) (<[n := Some a]> pv)
      else Fault
  end.

(** The part of [main] that fills [pv] and [psiz], from the positional
    arguments [av] (after the options), whether [Pflag] is non-zero, and
    the environment. *)
Definition resolve (av : list string) (Pflag : bool) (PATH : option string)
    : option (outcome (pv_t * Z)) :=
  (* c -= optind; psiz += c; *)
  let psiz := size_t (Z.of_nat (length av)) in
  (* if (psiz <= 0 || Pflag) parsepath(); *)
  r ← (if (psiz <=? 0) || Pflag then parsepath PATH pv_init psiz
       else Some (Done (pv_init, psiz)));
  Some ('(pv, psiz') ← r;
        (* if (psiz > MAXPATHS) { ...; finish(0); } *)
        if MAXPATHS <? psiz' then Fatal "Too many paths!"
        else pv' ← copy_args av 0 pv; Done (pv', psiz')).

(** The search-path list: the [psiz] slots of [pv] in use. *)
Definition search_paths (pv : pv_t) (psiz : Z) : list (option string) :=
  take (Z.to_nat psiz) pv.

(** ** Index construction *)

Section Init.

(** The file system and the allocator, as [init] sees them:
    the names [readdir] yields for a directory that [opendir] opens (the
    pseudo-entries included), whether [access(p, X_OK)] is 0, the
    [st_size] that [stat] reports when it succeeds, and whether [realloc]
    to a given number of bytes succeeds. *)
Variable opendir : string -> option (list string).
Variable access_X_OK : string -> bool.
Variable stat : string -> option Z.
Variable realloc : Z -> bool.

(** [sizeof(exe_t)]: two arrays of 2048 bytes and a [size_t]. *)
Definition sizeof_exe_t : Z := 2048 + 2048 + 8.

(** The globals that [init] writes; [ix_ev] holds the [evsiz] records
    stored so far. *)
Record index := { ix_ev : list exe_t; ix_evcap : Z; ix_totsiz : Z }.

(** [evsiz] while the index is built. *)
Definition ix_evsiz (ix : index) : Z := size_t (Z.of_nat (length (ix_ev ix))).

(** The loop [while ((d = readdir(dir)))] over the entries of the
    directory [dir_path]. *)
Fixpoint scan_dir (dir_path : string) (entries : list string) (ix : index)
    : outcome index :=
  match entries with
  | [] => Done ix
  | d_name :: rest =>
      if (strcmp d_name "." =? 0) || (strcmp d_name ".." =? 0) then
        scan_dir dir_path rest ix
      else
        let buf := snprintf_s 4096 (dir_path ++ "/" ++ d_name) in
        if negb (access_X_OK buf) then scan_dir dir_path rest ix
        else
          match stat buf with
          | None => scan_dir dir_path rest ix
          | Some st_size =>
              ix1 ← (if ix_evsiz ix =? ix_evcap ix then
                       let evcap := size_t (ix_evcap ix + 1024) in
                       if realloc (size_t (evcap * sizeof_exe_t)) then
                         Done {| ix_ev := ix_ev ix; ix_evcap := evcap;
                                 ix_totsiz := ix_totsiz ix |}
                       else Fatal ""
                     else Done ix);
              let exe := {| name := snprintf_s 2048 d_name;
                            path := snprintf_s 2048 buf;
                            siz := size_t st_size |} in
              scan_dir dir_path rest
                {| ix_ev := (ix_ev ix1 ++ [exe])%list;
                   ix_evcap := ix_evcap ix1;
                   ix_totsiz := size_t (ix_totsiz ix1 + st_size) |}
          end
  end.

(** The loop [for (n = 0; n < psiz; n++)] over the slots of [pv] in use,
    from slot [n] on; [k] is [psiz - n]. *)
Fixpoint scan_paths (pv : pv_t) (k n : nat) (ix : index) : outcome index :=
  match k with
  | O => Done ix
  | S k' =>
      match pv !! n with
      | Some (Some p) =>
          match opendir p with
          | None => scan_paths pv k' (S n) ix
          | Some entries =>
              ix' ← scan_dir p entries ix;
              scan_paths pv k' (S n) ix'
          end
      | _ => Fault
      end
  end.

(** [init()] *)
Definition init (pv : pv_t) (psiz : Z) : outcome index :=
  ix ← scan_paths pv (Z.to_nat psiz) 0
         {| ix_ev := []; ix_evcap := 0; ix_totsiz := 0 |};
  if ix_evsiz ix =? 0 then Fatal "Not found files in paths!"
  else Done ix.

End Init.

(** ** The launcher *)

(** How [exec] ends: it returns at once because [last] is null (and
    [loop], then [main], return 0); [fork] fails and the process ends
    through [finish(0)]; or the child is created, and the parent ends
    through [finish(0)] while the child, in a session of its own if
    [setsid] succeeds, calls [execl(p, p, NULL)] with [p = last->path]. *)
Inductive ending :=
  | NoSelection
  | ForkFailed
  | ChildExited
  | Started (p : string).

(** [exec()], given whether [fork] and [setsid] succeed. *)
Definition exec (fork_ok setsid_ok : bool) (g : globals) : outcome ending :=
  match last g with
  | None => Done NoSelection
  | Some _ =>
      if fork_ok then
        if setsid_ok then
          t ← deref (ev g) (last g);
          Done (Started (path t))
        else Done ChildExited
      else Done ForkFailed
  end.

(** ** The interactive loop *)

(** [KEY_BACKSPACE] of curses.h, octal 0407. *)
Definition KEY_BACKSPACE : Z := 263.

(** [chtype] is 32 bits wide and unsigned; [getch] returns an [int]. *)
Definition chtype (z : Z) : Z := z mod 2 ^ 32.

(** The conversion of a [chtype] to [char]: its low byte. *)
Definition char_of (c : Z) : ascii := ascii_of_N (Z.to_N (c mod 256)).

(** The string that a function reading [in] sees: the bytes before the
    first NUL. *)
Fixpoint c_str (s : string) : string :=
  match s with
  | EmptyString => EmptyString
  | String c s' => if byte_of c =? 0 then EmptyString else String c (c_str s')
  end.

(** [in[--n] = 0]: the buffer without its last byte. *)
Fixpoint drop_last (s : string) : string :=
  match s with
  | EmptyString => EmptyString
  | String c EmptyString => EmptyString
  | String c s' => String c (drop_last s')
  end.

(** What [loop] itself puts on the screen: the line
    [loaded <evsiz> files from <psiz> paths (<totsiz>)], the first line
    [exec <path> (<size>) <evsiz>], the prompt, an echoed key, a deleted
    cell, and what a call of [search] draws. *)
Inductive ldraw :=
  | LLoaded (files paths : Z) (size : string)
  | LExec (row : Z) (target size : string) (count : Z)
  | LPrompt (row : Z)
  | LAddch (c : Z)
  | LDelch (row col : Z)
  | LSearch (ds : list draw).

(** The state of [loop]: the globals, the [n] bytes typed so far ([in[n]]
    is NUL) and the screen output. *)
Record session := {
  s_glob : globals;
  s_in : string;
  s_out : list ldraw
}.

(** [pos], the row of the prompt. *)
Definition prompt_row (cfg : config) : Z :=
  match mode cfg with
  | MODELINE => 0
  | _ => if Sflag cfg then 1 else 2
  end.

(** [loop] up to its first [getch]: the banner, which reads [ev[0]], and
    the prompt. *)
Definition loop_start (cfg : config) (psiz totsiz : Z) (g : globals)
    : outcome session :=
  scr ← (match mode cfg with
         | MODELONG | MODESHORT =>
             r ← load (ev g) 0;
             Done ((if Sflag cfg then []
                    else [LLoaded (Z.of_nat (evsiz g)) psiz (bytesfmt totsiz)]) ++
                   [LExec (summary_row cfg) (path r) (bytesfmt (siz r))
                          (Z.of_nat (evsiz g))])%list
         | MODELINE => Done []
         end);
  Done {| s_glob := g; s_in := EmptyString;
          s_out := (scr ++ [LPrompt (prompt_row cfg)])%list |}.

(** The body of [while ((c = getch()) != '\n')] for the key [c]. *)
Definition keystroke (cfg : config) (c : Z) (s : session) : outcome session :=
  let n := Z.of_nat (String.length (s_in s)) in
  let '(in', echo) :=
    if (c =? KEY_BACKSPACE) || (c =? 127) then
      (* if (n > 0) { in[--n] = 0; move(pos, 2 + n); delch(); } *)
      if 0 <? n then (drop_last (s_in s), [LDelch (prompt_row cfg) (2 + (n - 1))])
      else (s_in s, [])
    else
      (* if (n < sizeof(in) - 1) { in[n++] = c; addch(c); } *)
      if n <? 2048 - 1 then (s_in s ++ String (char_of c) EmptyString, [LAddch c])
      else (s_in s, []) in
  (* in[n] = 0; search(in); *)
  '(_, g', ds) ← search cfg (c_str in') (s_glob s);
  Done {| s_glob := g'; s_in := in';
          s_out := (s_out s ++ echo ++ [LSearch ds])%list |}.

(** The loop over the keys that [getch] returns, in order, until a
    newline; the flag tells whether one came. *)
Fixpoint loop_keys (cfg : config) (keys : list Z) (s : session)
    : outcome (session * bool) :=
  match keys with
  | [] => Done (s, false)
  | k :: rest =>
      let c := chtype k in
      if c =? 10 then Done (s, true)
      else s' ← keystroke cfg c s; loop_keys cfg rest s'
  end.

(** How [loop] stands after the keys given: it has ended in [exec], or it
    waits in [getch] for the next key. *)
Inductive loop_result :=
  | Ended (e : ending)
  | Waiting (s : session).

(** [loop()], for the keys typed. *)
Definition loop (cfg : config) (fork_ok setsid_ok : bool) (psiz totsiz : Z)
    (g : globals) (keys : list Z) : outcome loop_result :=
  s0 ← loop_start cfg psiz totsiz g;
  '(s, newline) ← loop_keys cfg keys s0;
  if (newline : bool) then e ← exec fork_ok setsid_ok (s_glob s); Done (Ended e)
  else Done (Waiting s).

(** ** Option parsing *)

Section Options.

(** [isspace] in the locale that [setlocale] selects, and the values that
    the calls of [rand] return, in order. *)
Variable isspace : ascii -> bool.
Variable rand : nat -> nat.

(** [ULLONG_MAX] *)
Definition ULLONG_MAX : Z := 2 ^ 64 - 1.

(** Is the byte a decimal digit? *)
Definition is_digit (c : ascii) : bool :=
  (48 <=? byte_of c) && (byte_of c <=? 57).

(** The text after the leading white space. *)
Fixpoint skip_spaces (s : string) : string :=
  match s with
  | EmptyString => EmptyString
  | String c s' => if isspace c then skip_spaces s' else s
  end.

(** The value of the leading decimal digits of [s], continuing [acc], and
    the text after them. *)
Fixpoint digits_value (acc : Z) (s : string) : Z * string :=
  match s with
  | EmptyString => (acc, EmptyString)
  | String c s' =>
      if is_digit c then digits_value (acc * 10 + (byte_of c - 48)) s'
      else (acc, s)
  end.

(** Does [s] start with a digit? *)
Definition starts_with_digit (s : string) : bool :=
  match s with
  | String c _ => is_digit c
  | EmptyString => false
  end.

(** [strtoull(nptr, &endp, 10)]: the value returned, the text at [endp]
    and whether [errno] is set to [ERANGE].  White space is skipped and a
    sign accepted; without a digit the result is 0 and [endp] is [nptr];
    a value above [ULLONG_MAX] gives [ULLONG_MAX] and [ERANGE]; a value
    after ['-'] is negated as an unsigned number. *)
Definition strtoull (nptr : string) : Z * string * bool :=
  let s1 := skip_spaces nptr in
  let '(negative, s2) :=
    match s1 with
    | String c r =>
        if byte_of c =? 45 then (true, r)
        else if byte_of c =? 43 then (false, r)
        else (false, s1)
    | EmptyString => (false, s1)
    end in
  if starts_with_digit s2 then
    let '(v, rest) := digits_value 0 s2 in
    if ULLONG_MAX <? v then (ULLONG_MAX, rest, true)
    else (if (negative : bool) then size_t (- v) else v, rest, false)
  else (0, nptr, false).

(** The diagnostic [Failed convert "<optarg>" to num]. *)
Definition failed_convert (optarg : string) : string :=
  "Failed convert " ++ String (ascii_of_nat 34) optarg ++
  String (ascii_of_nat 34) " to num".

(** The case ['n'] of the option switch: the new value of [nprompt], or
    the diagnostic and [finish(0)]. *)
Definition parse_nprompt (optarg : string) : outcome Z :=
  let '(val, endp, erange) := strtoull optarg in
  let failed := failed_convert optarg in
  if (erange : bool) then Fatal failed
  else
    match skip_spaces endp with
    | EmptyString =>
        if (val <? 1) || (INT_MAX <? val) then Fatal failed
        else Done val
    | _ => Fatal failed
    end.

(** The globals that the options set; [o_Sflag] and [o_Pflag] are the
    [u_char] counters, and [o_rands] counts the calls of [rand]. *)
Record options := {
  o_mode : mode_t;
  o_nprompt : Z;
  o_Sflag : Z;
  o_Pflag : Z;
  o_rands : nat
}.

(** Their values when the program starts. *)
Definition options_init : options :=
  {| o_mode := MODESHORT; o_nprompt := DEFAULTNPROMPT;
     o_Sflag := 0; o_Pflag := 0; o_rands := 0 |}.

(** [++] on a [u_char] *)
Definition u_char_incr (z : Z) : Z := (z + 1) mod 256.

(** The display mode with the number [z]. *)
Definition mode_of (z : Z) : mode_t :=
  if z =? 0 then MODESHORT else if z =? 1 then MODELINE else MODELONG.

(** The usage text goes to [stderr] and the process ends. *)
Definition usage : string := "Usage".

(** The body of the option switch for one result of [getopt]: the option
    character [n] and its argument. *)
Definition option_step (n : ascii) (optarg : string) (o : options)
    : outcome options :=
  let b := byte_of n in
  if b =? 83 then        (* 'S' *)
    Done {| o_mode := o_mode o; o_nprompt := o_nprompt o;
            o_Sflag := u_char_incr (o_Sflag o); o_Pflag := o_Pflag o;
            o_rands := o_rands o |}
  else if b =? 80 then   (* 'P' *)
    Done {| o_mode := o_mode o; o_nprompt := o_nprompt o;
            o_Sflag := o_Sflag o; o_Pflag := u_char_incr (o_Pflag o);
            o_rands := o_rands o |}
  else if b =? 115 then  (* 's' *)
    Done {| o_mode := MODESHORT; o_nprompt := o_nprompt o;
            o_Sflag := o_Sflag o; o_Pflag := o_Pflag o;
            o_rands := o_rands o |}
  else if b =? 108 then  (* 'l' *)
    Done {| o_mode := MODELINE; o_nprompt := o_nprompt o;
            o_Sflag := o_Sflag o; o_Pflag := o_Pflag o;
            o_rands := o_rands o |}
  else if b =? 76 then   (* 'L' *)
    Done {| o_mode := MODELONG; o_nprompt := o_nprompt o;
            o_Sflag := o_Sflag o; o_Pflag := o_Pflag o;
            o_rands := o_rands o |}
  else if b =? 114 then  (* 'r': mode = rand() % 3 *)
    Done {| o_mode := mode_of (Z.of_nat (rand (o_rands o)) mod 3);
            o_nprompt := o_nprompt o;
            o_Sflag := o_Sflag o; o_Pflag := o_Pflag o;
            o_rands := S (o_rands o) |}
  else if b =? 110 then  (* 'n' *)
    val ← parse_nprompt optarg;
    Done {| o_mode := o_mode o; o_nprompt := val;
            o_Sflag := o_Sflag o; o_Pflag := o_Pflag o;
            o_rands := o_rands o |}
  else Fatal usage.      (* 'h', '?' and the others *)

(** [while ((n = getopt(c, av, SHORTOPTS)) != EOF)], over the results of
    [getopt] in order. *)
Fixpoint parse_options (opts : list (ascii * string)) (o : options)
    : outcome options :=
  match opts with
  | [] => Done o
  | (n, optarg) :: rest =>
      o' ← option_step n optarg o;
      parse_options rest o'
  end.

(** The options as [search] and [loop] read them. *)
Definition config_of (o : options) : config :=
  {| mode := o_mode o; nprompt := o_nprompt o;
     Sflag := negb (o_Sflag o =? 0) |}.

End Options.

(** ** The program up to the interactive loop *)

Section Startup.

Variable isspace : ascii -> bool.
Variable rand : nat -> nat.
Variable opendir : string -> option (list string).
Variable access_X_OK : string -> bool.
Variable stat : string -> option Z.
Variable realloc : Z -> bool.

(** [main] up to the call of [loop], for [argc] arguments: the options,
    given by the results of [getopt]; the search paths, from the arguments
    [av] left after the options and from [PATH]; the index.  [last] is
    still null when [loop] is entered. *)
Definition startup (argc : Z) (opts : list (ascii * string)) (av : list string)
    (PATH : option string) : option (outcome (config * Z * index * globals)) :=
  if argc <? 1 then Some (Fatal usage)
  else
    match parse_options isspace rand opts options_init with
    | Done o =>
        r ← resolve av (negb (o_Pflag o =? 0)) PATH;
        Some ('(pv, psiz) ← r;
              ix ← init opendir access_X_OK stat realloc pv psiz;
              Done (config_of o, psiz, ix, {| ev := ix_ev ix; last := None |}))
    | Fatal msg => Some (Fatal msg)
    | Fault => Some Fault
    end.

End Startup.

(** * Specification

    The notions the properties are stated with, and the data of the
    concrete runs. *)

(** The query occurs in [h]: some bytes, then the query, then the rest. *)
Definition substring_of (q h : string) : Prop :=
  exists pre post : string, h = pre ++ q ++ post.

(** [main] accepts [-n] only in this range, and the default lies in it. *)
Definition wf_config (cfg : config) : Prop := 1 <= nprompt cfg <= INT_MAX.

(** [evsiz] is a [size_t], and [last], when set, points into [ev]. *)
Definition wf_globals (g : globals) : Prop :=
  Z.of_nat (evsiz g) < 2 ^ SIZE_WIDTH /\
  match last g with
  | Some m => (m < evsiz g)%nat
  | None => True
  end.

(** The loop of [search] gets to index [n], in state [stn], and enters
    its body there. *)
Definition arrives (cfg : config) (q : string) (g : globals) (n : nat)
    (stn : frame) : Prop :=
  (n < evsiz g)%nat /\
  exists sum,
    matchCount q g = Done sum /\
    search_loop cfg q sum n 0 (entry g) = Done stn /\
    loc_fi stn <= size_t (nprompt cfg).

(** The first record, in index order, that contains the query. *)
Definition first_match (q : string) (l : list exe_t) (j : nat) : Prop :=
  exists r, l !! j = Some r /\ substring_of q (name r) /\
            forall i ri, (i < j)%nat -> l !! i = Some ri ->
                         ~ substring_of q (name ri).

(** The segments of [s] between the occurrences of the byte [d], the empty
    ones included: what splitting strictly on [d] gives. *)
Fixpoint split_on (d : ascii) (s : string) : list string :=
  match s with
  | EmptyString => [EmptyString]
  | String c s' =>
      if byte_of c =? byte_of d then EmptyString :: split_on d s'
      else match split_on d s' with
           | t :: ts => String c t :: ts
           | [] => [String c EmptyString]
           end
  end.

(** The strings of [l] that are not empty. *)
Definition nonempty (l : list string) : list string :=
  filter (λ t, String.length t <> 0%nat) l.

(** The segments that are not empty. *)
Definition tokens_of (s : string) : list string := nonempty (split_on ":" s).

(** What the tokens still to come are, given the token [strtok] has just
    returned and the text it has kept. *)
Definition pending (token : option string) (kept : string) : list string :=
  match token with
  | None => []
  | Some t => t :: tokens_of kept
  end.

(** 1024 to the power [j], as a denominator. *)
Fixpoint p1024 (j : nat) : positive :=
  match j with
  | O => 1
  | S j' => p1024 j' * 1024
  end.

(** The record of the file [nm] of the directory [dir]. *)
Definition exe (dir nm : string) (sz : Z) : exe_t :=
  {| name := nm; path := dir ++ "/" ++ nm; siz := sz |}.

(** The options when none is given on the command line. *)
Definition cfg_default : config :=
  {| mode := MODESHORT; nprompt := DEFAULTNPROMPT; Sflag := false |}.

(** Long mode with the display cap [k]. *)
Definition cfg_cap (k : Z) : config :=
  {| mode := MODELONG; nprompt := k; Sflag := false |}.

(** A value of [PATH] with [n] entries. *)
Fixpoint PATH_of (n : nat) : string :=
  match n with
  | O => EmptyString
  | S n' => "/d:" ++ PATH_of n'
  end.

(** A name of [n] bytes. *)
Fixpoint long_name (n : nat) : string :=
  match n with
  | O => EmptyString
  | S n' => String "x" (long_name n')
  end.

(** A file system with one directory, which holds a file whose name has
    3000 bytes. *)
Definition one_dir (p : string) : option (list string) :=
  if String.eqb p "/bin" then Some ["."; ".."; long_name 3000; "ls"] else None.

(** What [search] draws for the record [r] that contains the query, while
    [last] points at the record [t], [fi] names are on the screen and the
    match count is [sum]. *)
Definition hit_draws (cfg : config) (t r : exe_t) (fi sum : Z) : list draw :=
  match mode cfg with
  | MODESHORT => [DSummary (summary_row cfg) (path t) (bytesfmt (siz r)) sum]
  | MODELINE => []
  | MODELONG =>
      [DSummary (summary_row cfg) (path t) (bytesfmt (siz r)) sum;
       DHline (list_row cfg);
       DName (size_t (fi + list_row cfg)) (name r)]
  end.

(** The number of names of the list among the draws. *)
Fixpoint names_drawn (ds : list draw) : nat :=
  match ds with
  | [] => 0
  | DName _ _ :: ds' => S (names_drawn ds')
  | _ :: ds' => names_drawn ds'
  end.

(** The path that the summary line shows once the draws are made: that of
    the last summary drawn, if any. *)
Fixpoint last_summary (ds : list draw) : option string :=
  match ds with
  | [] => None
  | DSummary _ target _ _ :: ds' =>
      match last_summary ds' with
      | Some p => Some p
      | None => Some target
      end
  | _ :: ds' => last_summary ds'
  end.

(** Is the key, as [loop] switches on it, a backspace or the newline? *)
Definition editing_key (k : Z) : bool :=
  (chtype k =? KEY_BACKSPACE) || (chtype k =? 127) || (chtype k =? 10).

(** The bytes that the keys put into [in], one for each. *)
Fixpoint bytes_of_keys (keys : list Z) : string :=
  match keys with
  | [] => EmptyString
  | k :: rest => String (char_of (chtype k)) (bytes_of_keys rest)
  end.

(** The number of results of [getopt] with the option character of code
    [b]. *)
Definition count_option (b : Z) (opts : list (ascii * string)) : nat :=
  length (filter (λ o : ascii * string, byte_of (fst o) = b) opts).

(** The sum of the sizes of the records. *)
Definition total_size (l : list exe_t) : Z :=
  foldr (λ r acc, siz r + acc) 0 l.

(** * Properties *)

(** ** Strings *)

Lemma byte_of_inj c d : byte_of c = byte_of d -> c = d.
Proof.
  unfold byte_of. intros H. apply N2Z.inj in H.
  rewrite <- (ascii_N_embedding c), <- (ascii_N_embedding d). now f_equal.
Qed.

Lemma byte_eqb_eq c d : (byte_of c =? byte_of d) = true <-> c = d.
Proof.
  rewrite Z.eqb_eq. split; [apply byte_of_inj | now intros ->].
Qed.

Lemma strcmp_eq a b : strcmp a b = 0 <-> a = b.
Proof.
  revert b. induction a as [|c a IH]; intros [|d b]; simpl; try easy.
  destruct (byte_of c =? byte_of d) eqn:E.
  - apply byte_eqb_eq in E. subst d. rewrite IH.
    split; [now intros -> | now intros [= ->]].
  - split.
    + destruct (byte_of c <? byte_of d); discriminate.
    + intros [= -> ->]. rewrite Z.eqb_refl in E. discriminate.
Qed.

Lemma strcmp_refl a : strcmp a a = 0.
Proof. now apply strcmp_eq. Qed.

Lemma starts_with_spec q h :
  starts_with q h = true <-> exists post, h = q ++ post.
Proof.
  revert h. induction q as [|c q IH]; intros h; simpl.
  - split; [intros _; now exists h | easy].
  - destruct h as [|d h].
    + split; [easy | intros [post [=]]].
    + rewrite andb_true_iff, byte_eqb_eq, IH. split.
      * intros [-> [post ->]]. now exists post.
      * intros [post [= -> ->]]. eauto.
Qed.

Lemma starts_with_refl q : starts_with q q = true.
Proof.
  induction q as [|c q IH]; simpl; [easy|].
  now rewrite Z.eqb_refl, IH.
Qed.

Lemma strstr_refl q : strstr q q = Some q.
Proof. destruct q; simpl; [easy|]. now rewrite Z.eqb_refl, starts_with_refl. Qed.

Lemma strstr_empty h : strstr h "" = Some h.
Proof. now destruct h. Qed.

Lemma strstr_spec h q : is_Some (strstr h q) <-> substring_of q h.
Proof.
  unfold substring_of. induction h as [|c h IH].
  - simpl. destruct (starts_with q "") eqn:E.
    + apply starts_with_spec in E as [post E]. split; [|eauto].
      intros _. exists "", post. exact E.
    + split; [intros [x [=]]|].
      intros (pre & post & H). exfalso.
      destruct pre; simpl in H; [|discriminate].
      assert (starts_with q "" = true) by (apply starts_with_spec; eauto).
      congruence.
  - cbn [strstr]. destruct (starts_with q (String c h)) eqn:E.
    + apply starts_with_spec in E as [post E]. split; [|eauto].
      intros _. exists "", post. exact E.
    + rewrite IH. split.
      * intros (pre & post & ->). now exists (String c pre), post.
      * intros (pre & post & H). destruct pre as [|c' pre]; simpl in H.
        -- assert (starts_with q (String c h) = true)
             by (apply starts_with_spec; eauto).
           congruence.
        -- injection H as -> ->. eauto.
Qed.

#[global] Instance substring_of_dec q h : Decision (substring_of q h).
Proof.
  destruct (strstr h q) eqn:E.
  - left. apply strstr_spec. eauto.
  - right. intros H. apply strstr_spec in H as [x H]. congruence.
Defined.

Lemma strstr_None_iff h q : strstr h q = None <-> ~ substring_of q h.
Proof.
  rewrite <- strstr_spec. destruct (strstr h q); split; try easy.
  intros H. destruct H. eauto.
Qed.

Lemma substring_of_refl q : substring_of q q.
Proof. apply strstr_spec. rewrite strstr_refl. eauto. Qed.

(** ** The match count *)

(** The number of records of [l] whose name contains [q]. *)
Definition count_matches (q : string) (l : list exe_t) : nat :=
  length (filter (λ r, substring_of q (name r)) l).

(** The same count as an indicator, record by record. *)
Definition hit (q : string) (r : exe_t) : nat :=
  if decide (substring_of q (name r)) then 1%nat else 0%nat.

Lemma count_matches_snoc q l r :
  count_matches q (l ++ [r]) = (count_matches q l + hit q r)%nat.
Proof.
  unfold count_matches, hit. rewrite filter_app, length_app.
  f_equal. rewrite filter_cons, filter_nil. now destruct (decide _).
Qed.

Lemma count_matches_take_S q (l : list exe_t) n r :
  l !! n = Some r ->
  count_matches q (take (S n) l) = (count_matches q (take n l) + hit q r)%nat.
Proof.
  intros H. rewrite (take_S_r _ _ _ H). apply count_matches_snoc.
Qed.

Lemma count_matches_take_le q (l : list exe_t) n :
  (count_matches q (take n l) <= count_matches q l)%nat.
Proof.
  rewrite <- (take_drop n l) at 2. unfold count_matches.
  rewrite filter_app, length_app. lia.
Qed.

Lemma count_matches_take_bound q (l : list exe_t) n :
  (count_matches q (take n l) <= n)%nat.
Proof.
  unfold count_matches. etransitivity; [apply length_filter|].
  rewrite length_take. lia.
Qed.

Lemma count_matches_take_mono q (l : list exe_t) n n' :
  (n <= n')%nat ->
  (count_matches q (take n l) <= count_matches q (take n' l))%nat.
Proof.
  intros H. replace (take n l) with (take n (take n' l)).
  - apply count_matches_take_le.
  - rewrite take_take. f_equal. lia.
Qed.

Lemma count_matches_zero q (l : list exe_t) :
  count_matches q l = 0%nat <-> (forall r, r ∈ l -> ~ substring_of q (name r)).
Proof.
  unfold count_matches. rewrite length_zero_iff_nil. split.
  - intros H r Hr Hs.
    assert (r ∈ filter (λ r, substring_of q (name r)) l)
      by (apply list_elem_of_filter; auto).
    rewrite H in *. now apply not_elem_of_nil in H0.
  - intros H. apply elem_of_nil_inv. intros r Hr.
    apply list_elem_of_filter in Hr as [? ?]. now apply (H r).
Qed.

Lemma size_t_small z : 0 <= z < 2 ^ SIZE_WIDTH -> size_t z = z.
Proof. intros H. unfold size_t. now apply Z.mod_small. Qed.

Lemma count_loop_spec q (l : list exe_t) n sum :
  (n <= length l)%nat ->
  Z.of_nat n - Z.of_nat (count_matches q (take n l)) <= sum < 2 ^ SIZE_WIDTH ->
  count_loop q l n sum =
    Done (sum - (Z.of_nat n - Z.of_nat (count_matches q (take n l)))).
Proof.
  revert sum. induction n as [|n IH]; intros sum Hn Hs.
  - simpl. f_equal. rewrite take_0. unfold count_matches. simpl. lia.
  - destruct (lookup_lt_is_Some_2 l n ltac:(lia)) as [r Hr].
    pose proof (count_matches_take_S q l n r Hr) as HS.
    pose proof (strstr_None_iff (name r) q) as HN.
    pose proof (count_matches_take_bound q l n) as HB.
    cbn [count_loop]. unfold load. rewrite Hr. cbn.
    unfold hit in HS. destruct (strstr (name r) q) eqn:E.
    + destruct (decide (substring_of q (name r))) as [_|Hc].
      2:{ exfalso. apply Hc. apply strstr_spec. rewrite E. eauto. }
      rewrite IH by lia. f_equal. lia.
    + destruct (decide (substring_of q (name r))) as [Hc|_].
      { exfalso. now apply HN. }
      rewrite size_t_small by lia. rewrite IH by lia. f_equal. lia.
Qed.

Lemma count_matches_all (l : list exe_t) : count_matches "" l = length l.
Proof.
  unfold count_matches. induction l as [|r l IH]; [easy|].
  rewrite filter_cons. destruct (decide _) as [_|H].
  - simpl. now rewrite IH.
  - exfalso. apply H. apply strstr_spec. rewrite strstr_empty. eauto.
Qed.

(** ** One iteration of the selection loop *)

Section Body.

Variable cfg : config.
Variable q : string.
Variable sum : Z.

Lemma strcmp_neqb a b : a <> b -> (strcmp a b =? 0) = false.
Proof. intros H. apply Z.eqb_neq. now rewrite strcmp_eq. Qed.

Lemma strstr_hit h : substring_of q h -> exists p, strstr h q = Some p.
Proof. intros H. now apply strstr_spec. Qed.

(** A record that does not contain the query leaves everything as it is. *)
Lemma search_body_miss n st r :
  ev (glob st) !! n = Some r ->
  ~ substring_of q (name r) ->
  search_body cfg q sum n st = Done st.
Proof.
  intros Hr Hm. unfold search_body, load. rewrite Hr. cbn.
  rewrite strcmp_neqb.
  2:{ intros E. apply Hm. rewrite E. apply substring_of_refl. }
  cbn. rewrite Hr. cbn.
  now apply strstr_None_iff in Hm as ->.
Qed.

(** A record that contains the query without being equal to it: [last]
    is repointed to it unless an exact match came before. *)
Lemma search_body_hit n st r :
  ev (glob st) !! n = Some r ->
  name r <> q ->
  substring_of q (name r) ->
  (loc_s st = true ->
   exists m, last (glob st) = Some m /\ (m < length (ev (glob st)))%nat) ->
  exists scr,
    search_body cfg q sum n st =
      Done {| glob := if loc_s st then glob st
                      else {| ev := ev (glob st); last := Some n |};
              loc_s := loc_s st;
              loc_fi := size_t (loc_fi st + 1);
              screen := scr |}.
Proof.
  intros Hr Hne Hs Hl. unfold search_body, load. rewrite Hr. cbn.
  rewrite strcmp_neqb by assumption. cbn. rewrite Hr. cbn.
  destruct (strstr_hit _ Hs) as [p ->].
  destruct (loc_s st) eqn:Es.
  - destruct (Hl eq_refl) as (m & Hm & Hlt).
    destruct (lookup_lt_is_Some_2 _ _ Hlt) as [t Ht].
    unfold deref, load. rewrite Hm, Ht.
    destruct (mode cfg); cbn; eauto.
  - unfold deref, load. cbn. rewrite Hr.
    destruct (mode cfg); cbn; eauto.
Qed.

(** A record whose name is the query: it is copied over the record that
    [last] points at, and [last] stays where it is. *)
Lemma search_body_exact n st r m :
  ev (glob st) !! n = Some r ->
  name r = q ->
  last (glob st) = Some m ->
  (m < length (ev (glob st)))%nat ->
  exists scr,
    search_body cfg q sum n st =
      Done {| glob := {| ev := <[m := r]> (ev (glob st)); last := Some m |};
              loc_s := true;
              loc_fi := size_t (loc_fi st + 1);
              screen := scr |}.
Proof.
  intros Hr Hq Hm Hlt. unfold search_body, load. rewrite Hr. cbn.
  rewrite Hq, strcmp_refl. cbn. unfold store. rewrite Hm.
  destruct (decide (m < length (ev (glob st)))%nat) as [_|]; [|lia]. cbn.
  assert (Hn : <[m := r]> (ev (glob st)) !! n = Some r).
  { destruct (decide (m = n)) as [->|Hd].
    - now apply list_lookup_insert_eq.
    - now rewrite list_lookup_insert_ne. }
  rewrite Hn. cbn. rewrite Hq, strstr_refl.
  unfold deref, load. cbn. rewrite list_lookup_insert_eq by assumption.
  destruct (mode cfg); cbn; eauto.
Qed.

(** The same record while [last] is still null: the store faults. *)
Lemma search_body_null n st r :
  ev (glob st) !! n = Some r ->
  name r = q ->
  last (glob st) = None ->
  search_body cfg q sum n st = Fault.
Proof.
  intros Hr Hq Hm. unfold search_body, load. rewrite Hr. cbn.
  rewrite Hq, strcmp_refl. cbn. unfold store. now rewrite Hm.
Qed.

End Body.

(** ** The selection loop *)

Section Loop.

Variable cfg : config.
Variable q : string.
Variable sum : Z.

(** The array and the pointer when [search] is entered. *)
Variable l0 : list exe_t.
Variable p0 : option nat.

Hypothesis Hcfg : wf_config cfg.
Hypothesis Hp0 : forall m, p0 = Some m -> (m < length l0)%nat.

Local Abbreviation np := (nprompt cfg).

(** The number of records before index [n] that contain the query. *)
Definition before (n : nat) : Z := Z.of_nat (count_matches q (take n l0)).

Lemma size_t_nprompt : size_t (nprompt cfg) = np.
Proof.
  apply size_t_small. unfold wf_config, INT_MAX, SIZE_WIDTH in *.
  change (2 ^ 64) with 18446744073709551616. lia.
Qed.

Lemma before_0 : before 0 = 0.
Proof. unfold before. now rewrite take_0. Qed.

Lemma before_S n r :
  l0 !! n = Some r -> before (S n) = before n + Z.of_nat (hit q r).
Proof.
  intros H. unfold before. rewrite (count_matches_take_S _ _ _ _ H). lia.
Qed.

Lemma before_mono n n' : (n <= n')%nat -> before n <= before n'.
Proof.
  intros H. unfold before.
  pose proof (count_matches_take_mono q l0 n n' H). lia.
Qed.

Lemma before_nonneg n : 0 <= before n.
Proof. unfold before. lia. Qed.

Lemma before_all : before (length l0) = Z.of_nat (count_matches q l0).
Proof. unfold before. now rewrite firstn_all. Qed.

(** Once the guard [fi <= nprompt] fails the loop is over. *)
Lemma search_loop_guard k n st :
  size_t (nprompt cfg) < loc_fi st ->
  search_loop cfg q sum k n st = Done st.
Proof.
  intros H. destruct k; [easy|]. cbn [search_loop].
  destruct (loc_fi st <=? size_t (nprompt cfg)) eqn:E; [|easy].
  apply Z.leb_le in E. lia.
Qed.

(** The first [k1] iterations, then the others. *)
Lemma search_loop_split k1 k2 : forall n st,
  search_loop cfg q sum (k1 + k2) n st =
    search_loop cfg q sum k1 n st ≫= search_loop cfg q sum k2 (n + k1).
Proof.
  induction k1 as [|k1 IH]; intros n st.
  - cbn. now rewrite Nat.add_0_r.
  - cbn [Nat.add search_loop].
    destruct (loc_fi st <=? size_t (nprompt cfg)) eqn:E.
    + destruct (search_body cfg q sum n st) as [st'| |]; cbn; try easy.
      rewrite IH. now rewrite Nat.add_succ_r.
    + cbn. rewrite search_loop_guard; [easy|].
      apply Z.leb_gt in E. lia.
Qed.

(** *** Before the first exact match *)

(** Where [last] points when index [n] is reached and no exact match has
    been met: where it pointed on entry if no record so far contained
    the query, and otherwise at the latest record that did and was
    visited, which is the [nprompt]-th one at most. *)
Definition pointed (n : nat) (p : option nat) : Prop :=
  (before n = 0 /\ p = p0) \/
  (exists j r, p = Some j /\ (j < n)%nat /\ l0 !! j = Some r /\
               substring_of q (name r) /\
               before (S j) = Z.min np (before n)).

Record phase1 (n : nat) (st : frame) : Prop := {
  p1_s : loc_s st = false;
  p1_ev : ev (glob st) = l0;
  p1_fi : loc_fi st = 1 + Z.min np (before n);
  p1_last : pointed n (last (glob st))
}.

Lemma pointed_valid n p m :
  (n <= length l0)%nat -> pointed n p -> p = Some m -> (m < length l0)%nat.
Proof.
  intros Hn [[_ ->]|(j & r & -> & Hj & _)] Hm.
  - now apply Hp0.
  - injection Hm as <-. lia.
Qed.

Lemma phase1_guard n st :
  phase1 n st ->
  (loc_fi st <=? size_t (nprompt cfg)) = true <-> before n < np.
Proof.
  intros [_ _ Hfi _]. rewrite size_t_nprompt, Hfi, Z.leb_le.
  pose proof (before_nonneg n). lia.
Qed.

(** One iteration at a record whose name is not the query. *)
Lemma phase1_step n st r :
  phase1 n st ->
  before n < np ->
  l0 !! n = Some r ->
  name r <> q ->
  exists st',
    search_body cfg q sum n st = Done st' /\ phase1 (S n) st' /\
    last (glob st') = if decide (substring_of q (name r)) then Some n
                      else last (glob st).
Proof.
  intros [Hs Hev Hfi Hp] Hlt Hr Hne.
  pose proof (before_S n r Hr) as HS. pose proof (before_nonneg n) as H0.
  unfold hit in HS.
  destruct (decide (substring_of q (name r))) as [Hsub|Hsub].
  - destruct (search_body_hit cfg q sum n st r) as [scr Hb];
      [now rewrite Hev | assumption | assumption | now rewrite Hs |].
    rewrite Hs in Hb. eexists. split; [exact Hb|]. split; [|reflexivity].
    split; cbn; [easy | assumption | |].
    + rewrite Hfi, size_t_small; [lia|].
      unfold wf_config, INT_MAX, SIZE_WIDTH in *.
      change (2 ^ 64) with 18446744073709551616. lia.
    + right. exists n, r. repeat split; [lia | assumption | assumption | lia].
  - rewrite (search_body_miss cfg q sum n st r);
      [| now rewrite Hev | assumption].
    eexists. split; [reflexivity|]. split; [|reflexivity].
    split; [assumption | assumption | rewrite Hfi; f_equal; f_equal; lia |].
    destruct Hp as [[Hz ->]|(j & rj & -> & Hj & Hrj & Hsj & Hbj)].
    + left. split; [lia | reflexivity].
    + right. exists j, rj. repeat split; [lia | assumption | assumption | lia].
Qed.

(** Once [nprompt] records were shown nothing changes any more. *)
Lemma phase1_stay n n' st :
  phase1 n st -> np <= before n -> (n <= n')%nat -> phase1 n' st.
Proof.
  intros [Hs Hev Hfi Hp] Hge Hn.
  pose proof (before_mono n n' Hn).
  split; [assumption | assumption | rewrite Hfi; lia |].
  destruct Hp as [[Hz ->]|(j & rj & -> & Hj & Hrj & Hsj & Hbj)].
  - unfold wf_config in Hcfg. lia.
  - right. exists j, rj. repeat split; [lia | assumption | assumption | lia].
Qed.

(** The loop over a stretch of records none of which has the query as
    its name. *)
Lemma phase1_run k : forall n st,
  phase1 n st ->
  (n + k <= length l0)%nat ->
  (forall i r, (n <= i < n + k)%nat -> l0 !! i = Some r -> name r <> q) ->
  exists st', search_loop cfg q sum k n st = Done st' /\ phase1 (n + k) st'.
Proof.
  induction k as [|k IH]; intros n st H1 Hlen Hne.
  - exists st. rewrite Nat.add_0_r. now split.
  - cbn [search_loop].
    destruct (loc_fi st <=? size_t (nprompt cfg)) eqn:E.
    + apply (phase1_guard n st H1) in E.
      destruct (lookup_lt_is_Some_2 l0 n ltac:(lia)) as [r Hr].
      destruct (phase1_step n st r H1 E Hr) as (st1 & Hb & H1' & _).
      { apply (Hne n); [lia | assumption]. }
      rewrite Hb. cbn.
      destruct (IH (S n) st1 H1') as (st' & Hl & H1''); [lia | |].
      { intros i ri Hi. apply Hne. lia. }
      exists st'. split; [assumption|]. now rewrite Nat.add_succ_r.
    + exists st. split; [reflexivity|].
      apply (phase1_stay n); [assumption | | lia].
      destruct (Z.lt_ge_cases (before n) np) as [Hlt|Hge]; [|assumption].
      apply (phase1_guard n st H1) in Hlt. congruence.
Qed.

(** *** After an exact match *)

(** From the first exact match on, [last] stays at one slot [m]; that
    slot holds a copy of a record of the original array whose name is the
    query, and every other slot is as it was. *)
Record phase2 (m : nat) (st : frame) : Prop := {
  p2_s : loc_s st = true;
  p2_last : last (glob st) = Some m;
  p2_len : length (ev (glob st)) = length l0;
  p2_lt : (m < length l0)%nat;
  p2_frame : forall j, j <> m -> ev (glob st) !! j = l0 !! j;
  p2_slot : exists k r, l0 !! k = Some r /\ name r = q /\
                        ev (glob st) !! m = Some r
}.

Lemma phase2_step m n st :
  phase2 m st ->
  (n < length l0)%nat ->
  exists st', search_body cfg q sum n st = Done st' /\ phase2 m st'.
Proof.
  intros [Hs Hl Hlen Hlt Hfr (k & rk & Hk & Hqk & Hmk)] Hn.
  destruct (lookup_lt_is_Some_2 (ev (glob st)) n ltac:(lia)) as [r Hr].
  destruct (string_dec (name r) q) as [Hq|Hq].
  - destruct (search_body_exact cfg q sum n st r m Hr Hq Hl ltac:(lia))
      as [scr Hb].
    eexists. split; [exact Hb|].
    split; cbn; try easy.
    + now rewrite length_insert.
    + intros j Hj. rewrite list_lookup_insert_ne by congruence. now apply Hfr.
    + rewrite list_lookup_insert_eq by lia.
      destruct (decide (n = m)) as [->|Hd].
      * exists k, rk. rewrite Hmk in Hr. injection Hr as <-. auto.
      * exists n, r. rewrite <- (Hfr n Hd). auto.
  - destruct (decide (substring_of q (name r))) as [Hsub|Hsub].
    + destruct (search_body_hit cfg q sum n st r Hr Hq Hsub) as [scr Hb].
      { intros _. exists m. split; [assumption | lia]. }
      rewrite Hs in Hb. eexists. split; [exact Hb|].
      split; cbn; try easy. now exists k, rk.
    + rewrite (search_body_miss cfg q sum n st r Hr Hsub).
      eexists. split; [reflexivity|]. split; try easy. now exists k, rk.
Qed.

Lemma phase2_run m k : forall n st,
  phase2 m st ->
  (n + k <= length l0)%nat ->
  exists st', search_loop cfg q sum k n st = Done st' /\ phase2 m st'.
Proof.
  induction k as [|k IH]; intros n st H2 Hlen.
  - now exists st.
  - cbn [search_loop]. destruct (loc_fi st <=? size_t np); [|now exists st].
    destruct (phase2_step m n st H2 ltac:(lia)) as (st1 & -> & H2').
    cbn. apply IH; [assumption | lia].
Qed.

(** The store of an exact match starts the second phase. *)
Lemma phase1_exact n st r m :
  ev (glob st) = l0 ->
  l0 !! n = Some r ->
  name r = q ->
  last (glob st) = Some m ->
  (m < length l0)%nat ->
  exists st', search_body cfg q sum n st = Done st' /\ phase2 m st'.
Proof.
  intros Hev Hr Hq Hl Hlt.
  destruct (search_body_exact cfg q sum n st r m) as [scr Hb];
    [now rewrite Hev | assumption | assumption | now rewrite Hev |].
  eexists. split; [exact Hb|]. rewrite Hev.
  split; cbn; try easy.
  - now rewrite length_insert.
  - intros j Hj. now rewrite list_lookup_insert_ne by congruence.
  - exists n, r. now rewrite list_lookup_insert_eq by lia.
Qed.

(** *** Every state of the loop *)

Definition reachable (st : frame) : Prop :=
  (loc_s st = false /\ ev (glob st) = l0 /\
   forall m, last (glob st) = Some m -> (m < length l0)%nat) \/
  (exists m, phase2 m st).

Lemma reachable_step n st st' :
  reachable st ->
  (n < length l0)%nat ->
  search_body cfg q sum n st = Done st' ->
  reachable st'.
Proof.
  intros [(Hs & Hev & Hv)|[m H2]] Hn Hb.
  - destruct (lookup_lt_is_Some_2 l0 n Hn) as [r Hr].
    destruct (string_dec (name r) q) as [Hq|Hq].
    + destruct (last (glob st)) as [m|] eqn:Hl.
      * destruct (phase1_exact n st r m Hev Hr Hq Hl (Hv m eq_refl))
          as (st1 & Hb' & H2).
        rewrite Hb in Hb'. injection Hb' as ->. right. now exists m.
      * rewrite (search_body_null cfg q sum n st r) in Hb;
          [discriminate | now rewrite Hev | assumption | assumption].
    + destruct (decide (substring_of q (name r))) as [Hsub|Hsub].
      * destruct (search_body_hit cfg q sum n st r) as [scr Hb'];
          [now rewrite Hev | assumption | assumption | now rewrite Hs |].
        rewrite Hb in Hb'. injection Hb' as ->. rewrite Hs.
        left. cbn. repeat split; [assumption|].
        intros m [= <-]. assumption.
      * rewrite (search_body_miss cfg q sum n st r) in Hb;
          [| now rewrite Hev | assumption].
        injection Hb as <-. left. auto.
  - destruct (phase2_step m n st H2 Hn) as (st1 & Hb' & H2').
    rewrite Hb in Hb'. injection Hb' as ->. right. now exists m.
Qed.

Lemma reachable_run k : forall n st st',
  reachable st ->
  (n + k <= length l0)%nat ->
  search_loop cfg q sum k n st = Done st' ->
  reachable st'.
Proof.
  induction k as [|k IH]; intros n st st' HR Hlen Hrun.
  - injection Hrun as <-. assumption.
  - cbn [search_loop] in Hrun.
    destruct (loc_fi st <=? size_t np).
    + destruct (search_body cfg q sum n st) as [st1| |] eqn:Hb;
        cbn in Hrun; try discriminate.
      apply (IH (S n) st1 st'); [|lia|assumption].
      apply (reachable_step n st); [assumption | lia | assumption].
    + injection Hrun as <-. assumption.
Qed.

(** *** Reaching an exact match *)

(** [last] is set by the time the next exact match is reached: it is set
    already, or a record that contains the query without being equal to
    it comes first. *)
Definition primed (n : nat) (p : option nat) : Prop :=
  is_Some p \/
  exists j rj, (n <= j)%nat /\ l0 !! j = Some rj /\
               substring_of q (name rj) /\ name rj <> q /\
               forall i ri, (n <= i < j)%nat -> l0 !! i = Some ri ->
                            name ri <> q.

(** An exact match lies ahead, and fewer than [nprompt] records that
    contain the query come before it. *)
Definition ahead (n : nat) : Prop :=
  exists n1 r1, (n <= n1)%nat /\ l0 !! n1 = Some r1 /\ name r1 = q /\
                before n1 < np.

Lemma exact_run k : forall n st,
  (n + k = length l0)%nat ->
  (phase1 n st /\ primed n (last (glob st)) /\ ahead n) \/
  (exists m, phase2 m st) ->
  exists st' m, search_loop cfg q sum k n st = Done st' /\ phase2 m st'.
Proof.
  induction k as [|k IH]; intros n st Hlen [(H1 & Hpr & Hah)|[m H2]].
  - destruct Hah as (n1 & r1 & Hn1 & Hr1 & _).
    apply lookup_lt_Some in Hr1. lia.
  - now exists st, m.
  - destruct Hah as (n1 & r1 & Hn1 & Hr1 & Hq1 & Hb1).
    pose proof (before_mono n n1 Hn1) as Hmono.
    cbn [search_loop].
    rewrite (proj2 (phase1_guard n st H1)) by lia.
    destruct (lookup_lt_is_Some_2 l0 n ltac:(lia)) as [r Hr].
    destruct (string_dec (name r) q) as [Hq|Hq].
    + assert (Hsome : is_Some (last (glob st))).
      { destruct Hpr as [?|(j & rj & Hj & Hrj & _ & Hnq & Hno)]; [assumption|].
        exfalso. destruct (decide (j = n)) as [->|Hd].
        - rewrite Hr in Hrj. injection Hrj as <-. contradiction.
        - apply (Hno n r); [lia | assumption | assumption]. }
      destruct Hsome as [m Hm].
      assert (Hlt : (m < length l0)%nat).
      { apply (pointed_valid n (last (glob st)));
          [lia | apply H1 | assumption]. }
      destruct (phase1_exact n st r m (p1_ev _ _ H1) Hr Hq Hm Hlt)
        as (st1 & -> & H2).
      cbn. destruct (phase2_run m k (S n) st1 H2 ltac:(lia)) as (st' & ? & ?).
      eauto.
    + destruct (phase1_step n st r H1 ltac:(lia) Hr Hq)
        as (st1 & -> & H1' & Hl1).
      cbn. apply IH; [lia|]. left. split; [assumption|]. split.
      * rewrite Hl1. destruct (decide (substring_of q (name r))) as [Hs|Hs].
        -- left. eauto.
        -- destruct Hpr as [?|(j & rj & Hj & Hrj & Hsj & Hnq & Hno)];
             [now left|].
           right. exists j, rj. repeat split; try assumption.
           ++ destruct (decide (j = n)) as [->|Hd]; [|lia].
              rewrite Hr in Hrj. injection Hrj as <-. contradiction.
           ++ intros i ri Hi. apply Hno. lia.
      * exists n1, r1. repeat split; try assumption.
        destruct (decide (n1 = n)) as [->|Hd]; [|lia].
        rewrite Hr in Hr1. injection Hr1 as <-. contradiction.
  - destruct (phase2_run m (S k) n st H2 ltac:(lia)) as (st' & ? & ?).
    eauto.
Qed.

End Loop.

(** ** The filter/selection engine *)

Lemma wf_globals_last g m :
  wf_globals g -> last g = Some m -> (m < length (ev g))%nat.
Proof. intros [_ H] Hm. now rewrite Hm in H. Qed.

Lemma matchCount_spec q g :
  wf_globals g ->
  matchCount q g = Done (Z.of_nat (count_matches q (ev g))).
Proof.
  intros [Hsz _]. unfold matchCount, evsiz in *.
  pose proof (count_matches_take_bound q (ev g) (length (ev g))) as Hb.
  rewrite size_t_small by lia.
  rewrite count_loop_spec by lia.
  rewrite firstn_all. f_equal. lia.
Qed.

Lemma phase1_entry cfg q g :
  wf_config cfg ->
  phase1 cfg q (ev g) (last g) 0 (entry g).
Proof.
  intros Hcfg. unfold wf_config in Hcfg.
  split; cbn; [reflexivity | reflexivity | |].
  - rewrite before_0. lia.
  - left. split; [apply before_0 | reflexivity].
Qed.

Lemma globals_eta g : {| ev := ev g; last := last g |} = g.
Proof. now destruct g. Qed.

(** A stretch of records none of which contains the query is passed over,
    whatever the display cap. *)
Lemma search_loop_all_miss cfg q sum k : forall n st,
  (n + k <= length (ev (glob st)))%nat ->
  (forall r, r ∈ ev (glob st) -> ~ substring_of q (name r)) ->
  search_loop cfg q sum k n st = Done st.
Proof.
  induction k as [|k IH]; intros n st Hlen Hno; [reflexivity|].
  cbn [search_loop]. destruct (loc_fi st <=? size_t (nprompt cfg)); [|reflexivity].
  destruct (lookup_lt_is_Some_2 (ev (glob st)) n ltac:(lia)) as [r Hr].
  rewrite (search_body_miss cfg q sum n st r Hr).
  - cbn. apply IH; [lia | assumption].
  - apply Hno. apply list_elem_of_lookup. eauto.
Qed.

(** C5. For every index and every query, the match count that [search]
    computes is the number of records whose name contains the query as a
    substring (bytes compared as they are, at any position); for the empty
    query it is the number of records of the index. *)
Theorem match_count_correct (cfg : config) (q : string) (g : globals) :
  wf_globals g ->
  matchCount q g = Done (Z.of_nat (count_matches q (ev g))) /\
  (forall sum g' scr,
     search cfg q g = Done (sum, g', scr) ->
     sum = Z.of_nat (count_matches q (ev g))) /\
  matchCount "" g = Done (Z.of_nat (evsiz g)).
Proof.
  intros Hwf. split; [|split].
  - now apply matchCount_spec.
  - intros sum g' scr. unfold search.
    rewrite (matchCount_spec q g Hwf). cbn.
    destruct (search_loop _ _ _ _ _ _); cbn; congruence.
  - rewrite (matchCount_spec "" g Hwf). now rewrite count_matches_all.
Qed.

(** C9. A query that no record contains leaves the match count at 0 and
    the globals as they were: [last] still points where it pointed, and
    no record of the index is written. *)
Theorem no_match_keeps_selection (cfg : config) (q : string) (g : globals) :
  wf_globals g ->
  (forall r, r ∈ ev g -> ~ substring_of q (name r)) ->
  exists scr, search cfg q g = Done (0, g, scr).
Proof.
  intros Hwf Hno. unfold search.
  rewrite (matchCount_spec q g Hwf).
  rewrite (proj2 (count_matches_zero q (ev g)) Hno). cbn.
  rewrite search_loop_all_miss; cbn; [eauto | unfold evsiz; lia | assumption].
Qed.

(** [search] in terms of its second loop, once the count is known. *)
Lemma search_unfold cfg q g :
  wf_globals g ->
  search cfg q g =
    st ← search_loop cfg q (Z.of_nat (count_matches q (ev g))) (evsiz g) 0 (entry g);
    Done (Z.of_nat (count_matches q (ev g)), glob st,
          (screen st ++ clear_rows cfg (loc_fi st))%list).
Proof. intros Hwf. unfold search. now rewrite (matchCount_spec q g Hwf). Qed.

(** C2, as amended. When no record has the query as its name and some
    record contains it, [last] ends at the latest record containing the
    query that the loop visits: with [c] such records in the index, the
    record that is number [min nprompt c] among them in index order.  The
    array is not written. *)
Theorem latest_match_selected (cfg : config) (q : string) (g : globals) :
  wf_config cfg ->
  wf_globals g ->
  (forall r, r ∈ ev g -> name r <> q) ->
  (0 < count_matches q (ev g))%nat ->
  exists sum scr j r,
    search cfg q g = Done (sum, {| ev := ev g; last := Some j |}, scr) /\
    ev g !! j = Some r /\
    substring_of q (name r) /\
    Z.of_nat (count_matches q (take (S j) (ev g))) =
      Z.min (nprompt cfg) (Z.of_nat (count_matches q (ev g))).
Proof.
  intros Hcfg Hwf Hne Hc.
  destruct (phase1_run cfg q (Z.of_nat (count_matches q (ev g))) (ev g) (last g)
              Hcfg (evsiz g) 0 (entry g))
    as (st & Hrun & [Hs Hev Hfi Hp]).
  - now apply phase1_entry.
  - unfold evsiz. lia.
  - intros i r _ Hr. apply Hne. apply list_elem_of_lookup. eauto.
  - rewrite (search_unfold cfg q g Hwf), Hrun. cbn.
    unfold pointed, evsiz in Hp. cbn [Nat.add] in Hp. rewrite before_all in Hp.
    destruct Hp as [[Hz _]|(j & r & Hl & _ & Hr & Hsub & Hb)]; [lia|].
    exists (Z.of_nat (count_matches q (ev g))), (screen st ++ clear_rows cfg (loc_fi st))%list, j, r.
    repeat split; try assumption.
    rewrite <- Hev, <- Hl. now rewrite globals_eta.
Qed.

(** C1, as amended. Let the record at index [n] have the query as its
    name, with fewer than [nprompt] records containing the query before it,
    and let the records of that name all have the same path and size.  If
    [last] is set by the time the first such record is reached (it was set
    on entry, or a record that contains the query without being equal to it
    comes before every exact match), then [search] returns and the record
    [last] points at has the name, path and size of record [n]. *)
Theorem exact_match_selected (cfg : config) (q : string) (g : globals)
    (n : nat) (r : exe_t) :
  wf_config cfg ->
  wf_globals g ->
  ev g !! n = Some r ->
  name r = q ->
  (forall k r', ev g !! k = Some r' -> name r' = q ->
                path r' = path r /\ siz r' = siz r) ->
  Z.of_nat (count_matches q (take n (ev g))) < nprompt cfg ->
  (is_Some (last g) \/
   exists j rj, ev g !! j = Some rj /\ substring_of q (name rj) /\
                name rj <> q /\
                forall i ri, (i < j)%nat -> ev g !! i = Some ri -> name ri <> q) ->
  exists sum g' scr sel,
    search cfg q g = Done (sum, g', scr) /\
    selected g' = Some sel /\
    name sel = q /\ path sel = path r /\ siz sel = siz r.
Proof.
  intros Hcfg Hwf Hr Hq Hsame Hcap Hset.
  destruct (exact_run cfg q (Z.of_nat (count_matches q (ev g))) (ev g) (last g)
              Hcfg (fun m => wf_globals_last g m Hwf) (evsiz g) 0 (entry g))
    as (st & m & Hrun & [Hs Hl Hlen Hlt Hfr (k & rk & Hk & Hqk & Hmk)]).
  - reflexivity.
  - left. split; [now apply phase1_entry|]. split.
    + destruct Hset as [?|(j & rj & Hj & Hsj & Hnj & Hno)]; [now left|].
      right. exists j, rj. repeat split; try assumption; [lia|].
      intros i ri Hi. apply Hno. lia.
    + exists n, r. repeat split; [lia | assumption | assumption | assumption].
  - rewrite (search_unfold cfg q g Hwf), Hrun. cbn.
    do 3 eexists. exists rk. split; [reflexivity|].
    unfold selected. rewrite Hl. split; [assumption|]. split; [assumption|].
    now apply (Hsame k).
Qed.

(** C3. While [last] is null, a query that is the name of the first record
    containing it makes [search] store through the null pointer. *)
Theorem null_selection_faults (cfg : config) (q : string) (g : globals)
    (n : nat) (r : exe_t) :
  wf_config cfg ->
  wf_globals g ->
  last g = None ->
  ev g !! n = Some r ->
  name r = q ->
  (forall i ri, (i < n)%nat -> ev g !! i = Some ri -> ~ substring_of q (name ri)) ->
  search cfg q g = Fault.
Proof.
  intros Hcfg Hwf Hnull Hr Hq Hno.
  pose proof (lookup_lt_Some _ _ _ Hr) as Hn.
  rewrite (search_unfold cfg q g Hwf).
  replace (evsiz g) with (n + S (length (ev g) - S n))%nat by (unfold evsiz; lia).
  rewrite search_loop_split.
  destruct (phase1_run cfg q (Z.of_nat (count_matches q (ev g))) (ev g) (last g)
              Hcfg n 0 (entry g))
    as (st & -> & H1).
  - now apply phase1_entry.
  - lia.
  - intros i ri Hi Hri E. apply (Hno i ri); [lia | assumption |].
    rewrite E. apply substring_of_refl.
  - cbn [mbind outcome_bind Nat.add search_loop].
    assert (Hz : before q (ev g) n = 0).
    { unfold before. apply Nat2Z.inj_iff with (m := 0%nat).
      apply count_matches_zero. intros x Hx.
      apply list_elem_of_lookup in Hx as [i Hi].
      apply lookup_take_Some in Hi as [Hi Hlt]. now apply (Hno i). }
    rewrite (proj2 (phase1_guard cfg q (ev g) (last g) Hcfg n st H1))
      by (unfold wf_config in Hcfg; lia).
    destruct H1 as [Hs Hev Hfi Hp].
    rewrite (search_body_null cfg q _ n st r); [reflexivity | | assumption |].
    + now rewrite Hev.
    + destruct Hp as [[_ ->]|(j & rj & _ & Hj & Hrj & Hsj & _)]; [assumption|].
      exfalso. now apply (Hno j rj).
Qed.

(** C4, as amended. When the loop meets at index [n] a record whose name
    is the query while [last] points at another slot [m], then after the
    search every slot but [m] is as it was on entry, and slot [m] holds the
    former contents of a record whose name is the query: those of record
    [n] whenever the records of that name are all alike, as when record [n]
    is the only one. *)
Theorem exact_overwrites_slot (cfg : config) (q : string) (g : globals)
    (n m : nat) (stn : frame) (r : exe_t) :
  wf_globals g ->
  arrives cfg q g n stn ->
  ev (glob stn) !! n = Some r ->
  name r = q ->
  last (glob stn) = Some m ->
  m <> n ->
  exists sum g' scr,
    search cfg q g = Done (sum, g', scr) /\
    ev g !! n = Some r /\
    (forall j, j <> m -> ev g' !! j = ev g !! j) /\
    (exists k rk, ev g !! k = Some rk /\ name rk = q /\ ev g' !! m = Some rk) /\
    ((forall k rk, ev g !! k = Some rk -> name rk = q -> rk = r) ->
     ev g' !! m = Some r).
Proof.
  intros Hwf (Hn & sum & Hmc & Hrun & Hguard) Hr Hq Hl Hmn.
  rewrite (matchCount_spec q g Hwf) in Hmc. injection Hmc as <-.
  unfold evsiz in Hn.
  assert (HR : reachable q (ev g) stn).
  { apply (reachable_run cfg q (Z.of_nat (count_matches q (ev g))) (ev g)
             n 0 (entry g));
      [|lia|exact Hrun].
    left. cbn. repeat split. intros m'. apply wf_globals_last, Hwf. }
  assert (Hstep : exists st1,
             search_body cfg q (Z.of_nat (count_matches q (ev g))) n stn = Done st1 /\
             phase2 q (ev g) m st1 /\ ev g !! n = Some r).
  { destruct HR as [(Hs & Hev & Hv)|[m' H2]].
    - rewrite Hev in Hr.
      destruct (phase1_exact cfg q (Z.of_nat (count_matches q (ev g))) (ev g)
                  n stn r m Hev Hr Hq Hl (Hv m Hl)) as (st1 & ? & ?).
      eauto.
    - pose proof (p2_last _ _ _ _ H2) as Hl'. rewrite Hl in Hl'.
      injection Hl' as <-.
      destruct (phase2_step cfg q (Z.of_nat (count_matches q (ev g))) (ev g)
                  m n stn H2 Hn) as (st1 & ? & ?).
      exists st1. split; [assumption|]. split; [assumption|].
      rewrite <- (p2_frame _ _ _ _ H2 n) by congruence. assumption. }
  destruct Hstep as (st1 & Hb & H2 & Hr0).
  destruct (phase2_run cfg q (Z.of_nat (count_matches q (ev g))) (ev g) m
              (length (ev g) - S n) (S n) st1 H2 ltac:(lia))
    as (st' & Hrun' & [Hs' Hl' Hlen' Hlt' Hfr' (k & rk & Hk & Hqk & Hmk)]).
  rewrite (search_unfold cfg q g Hwf).
  replace (evsiz g) with (n + S (length (ev g) - S n))%nat by (unfold evsiz; lia).
  rewrite search_loop_split, Hrun.
  cbn [mbind outcome_bind Nat.add search_loop].
  rewrite (proj2 (Z.leb_le _ _) Hguard), Hb.
  cbn [mbind outcome_bind]. rewrite Hrun'. cbn.
  do 3 eexists. split; [reflexivity|].
  split; [assumption|]. split; [assumption|]. split.
  - exists k, rk. auto.
  - intros Hu. now rewrite <- (Hu k rk Hk Hqk).
Qed.

(** ** Concrete runs of the engine *)

Lemma wf_cfg_default : wf_config cfg_default.
Proof.
  unfold wf_config, cfg_default, DEFAULTNPROMPT, INT_MAX. cbn [nprompt]. lia.
Qed.

Ltac wf_globals_tac := split; [reflexivity | cbn; try lia; exact I].

Ltac each_record :=
  let r := fresh "r" in
  let H := fresh "H" in
  intros r H;
  repeat (apply elem_of_cons in H as [->|H]);
  [.. | now apply elem_of_nil in H].

Lemma match_count_witness :
  matchCount "foo" {| ev := [exe "/bin" "foo" 100; exe "/bin" "foobar" 200;
                             exe "/bin" "ls" 300];
                      last := None |} = Done 2.
Proof.
  refine (proj1 (match_count_correct cfg_default "foo" _ _)).
  wf_globals_tac.
Defined.

Lemma no_match_keeps_selection_witness :
  exists scr,
    search cfg_default "zzz"
      {| ev := [exe "/bin" "foo" 100; exe "/bin" "foobar" 200]; last := Some 1%nat |}
    = Done (0, {| ev := [exe "/bin" "foo" 100; exe "/bin" "foobar" 200];
                  last := Some 1%nat |}, scr).
Proof.
  apply no_match_keeps_selection.
  - wf_globals_tac.
  - each_record; apply strstr_None_iff; reflexivity.
Defined.

Lemma latest_match_selected_witness :
  exists sum scr j r,
    search cfg_default "a"
      {| ev := [exe "/bin" "ab" 1; exe "/bin" "ls" 2; exe "/bin" "abc" 3];
         last := None |}
    = Done (sum, {| ev := [exe "/bin" "ab" 1; exe "/bin" "ls" 2; exe "/bin" "abc" 3];
                    last := Some j |}, scr) /\
    [exe "/bin" "ab" 1; exe "/bin" "ls" 2; exe "/bin" "abc" 3] !! j = Some r /\
    substring_of "a" (name r) /\
    Z.of_nat (count_matches "a"
                (take (S j) [exe "/bin" "ab" 1; exe "/bin" "ls" 2; exe "/bin" "abc" 3]))
    = Z.min 30 (Z.of_nat (count_matches "a"
                [exe "/bin" "ab" 1; exe "/bin" "ls" 2; exe "/bin" "abc" 3])).
Proof.
  apply (latest_match_selected cfg_default "a"
           {| ev := [exe "/bin" "ab" 1; exe "/bin" "ls" 2; exe "/bin" "abc" 3];
              last := None |}).
  - exact wf_cfg_default.
  - wf_globals_tac.
  - each_record; discriminate.
  - vm_compute. lia.
Defined.

Lemma exact_match_selected_witness :
  exists sum g' scr sel,
    search cfg_default "foo"
      {| ev := [exe "/bin" "foobar" 200; exe "/bin" "foo" 100]; last := None |}
    = Done (sum, g', scr) /\
    selected g' = Some sel /\
    name sel = "foo" /\ path sel = "/bin/foo" /\ siz sel = 100.
Proof.
  apply (exact_match_selected cfg_default "foo"
           {| ev := [exe "/bin" "foobar" 200; exe "/bin" "foo" 100]; last := None |}
           1 (exe "/bin" "foo" 100)).
  - exact wf_cfg_default.
  - wf_globals_tac.
  - reflexivity.
  - reflexivity.
  - intros [|[|k]] r' Hk Hq; cbn in Hk; try discriminate;
      injection Hk as <-; [discriminate Hq | now split].
  - vm_compute. reflexivity.
  - right. exists 0%nat, (exe "/bin" "foobar" 200).
    split; [reflexivity|]. split; [|split; [discriminate|intros; lia]].
    apply strstr_spec. vm_compute. eauto.
Defined.

Lemma null_selection_faults_witness :
  search cfg_default "a"
    {| ev := [exe "/bin" "ls" 10; exe "/bin" "a" 20]; last := None |} = Fault.
Proof.
  apply (null_selection_faults cfg_default "a" _ 1 (exe "/bin" "a" 20)).
  - exact wf_cfg_default.
  - wf_globals_tac.
  - reflexivity.
  - reflexivity.
  - reflexivity.
  - intros [|i] ri Hi Hri; [|lia]. injection Hri as <-.
    apply strstr_None_iff. reflexivity.
Defined.

Lemma exact_overwrites_slot_witness :
  exists sum g' scr,
    search cfg_default "foo"
      {| ev := [exe "/bin" "foo" 100; exe "/bin" "bar" 200; exe "/bin" "ls" 300];
         last := Some 1%nat |}
    = Done (sum, g', scr) /\
    ev g' = [exe "/bin" "foo" 100; exe "/bin" "foo" 100; exe "/bin" "ls" 300].
Proof.
  destruct (exact_overwrites_slot cfg_default "foo"
              {| ev := [exe "/bin" "foo" 100; exe "/bin" "bar" 200; exe "/bin" "ls" 300];
                 last := Some 1%nat |}
              0 1
              (entry {| ev := [exe "/bin" "foo" 100; exe "/bin" "bar" 200;
                               exe "/bin" "ls" 300];
                        last := Some 1%nat |})
              (exe "/bin" "foo" 100))
    as (sum & g' & scr & Hs & _).
  - wf_globals_tac.
  - split; [cbn; lia|]. exists 1. split; [reflexivity|]. split; [reflexivity|].
    vm_compute. discriminate.
  - reflexivity.
  - reflexivity.
  - reflexivity.
  - discriminate.
  - exists sum, g', scr. split; [exact Hs|].
    vm_compute in Hs. now injection Hs as _ <- _.
Defined.

(** C1 as it is stated fails: with [nprompt = 1] and two records that
    contain ["foo"] before the record named ["foo"], the loop ends after
    the first of them, and [last] points at ["foobar"]. *)
Lemma exact_match_beyond_cap_not_selected :
  ~ (forall cfg q g n r,
       wf_config cfg -> wf_globals g ->
       ev g !! n = Some r -> name r = q ->
       exists sum g' scr sel,
         search cfg q g = Done (sum, g', scr) /\
         selected g' = Some sel /\
         path sel = path r /\ siz sel = siz r).
Proof.
  intros H.
  destruct (H (cfg_cap 1) "foo"
              {| ev := [exe "/bin" "foobar" 200; exe "/bin" "foobaz" 300;
                        exe "/bin" "foo" 100];
                 last := Some 0%nat |}
              2%nat (exe "/bin" "foo" 100))
    as (sum & g' & scr & sel & Hs & Hsel & Hp & _).
  - unfold wf_config, INT_MAX. cbn. lia.
  - wf_globals_tac.
  - reflexivity.
  - reflexivity.
  - vm_compute in Hs. injection Hs as _ <- _.
    injection Hsel as <-. discriminate Hp.
Qed.

(** C2 as it is stated fails: with ["ab"] before ["abc"] and the query
    ["a"], [last] ends at ["abc"], the second record that contains it. *)
Lemma first_match_not_selected :
  ~ (forall cfg q g,
       wf_config cfg -> wf_globals g ->
       (forall r, r ∈ ev g -> name r <> q) ->
       (0 < count_matches q (ev g))%nat ->
       exists sum g' scr j,
         search cfg q g = Done (sum, g', scr) /\
         last g' = Some j /\ first_match q (ev g) j).
Proof.
  intros H.
  destruct (H cfg_default "a"
              {| ev := [exe "/bin" "ab" 1; exe "/bin" "abc" 3]; last := None |})
    as (sum & g' & scr & j & Hs & Hl & r & Hr & _ & Hfirst).
  - exact wf_cfg_default.
  - wf_globals_tac.
  - each_record; discriminate.
  - vm_compute. lia.
  - vm_compute in Hs. injection Hs as _ <- _.
    injection Hl as <-.
    apply (Hfirst 0%nat (exe "/bin" "ab" 1)); [lia | reflexivity |].
    apply strstr_spec. vm_compute. eauto.
Qed.

(** C4 as it is stated fails: with two records named ["x"], the second
    is copied over the first copy, and slot [m] ends with the contents of
    the second, not of record [n = 0]. *)
Lemma overwritten_slot_not_record_n :
  ~ (forall cfg q g n m stn r,
       wf_globals g ->
       arrives cfg q g n stn ->
       ev (glob stn) !! n = Some r ->
       name r = q ->
       last (glob stn) = Some m ->
       m <> n ->
       exists sum g' scr,
         search cfg q g = Done (sum, g', scr) /\
         ev g' !! m = Some r /\
         (forall j, j <> m -> ev g' !! j = ev g !! j)).
Proof.
  intros H.
  destruct (H cfg_default "x"
              {| ev := [exe "/bin" "x" 1; exe "/usr/bin" "x" 2; exe "/bin" "y" 3];
                 last := Some 2%nat |}
              0%nat 2%nat
              (entry {| ev := [exe "/bin" "x" 1; exe "/usr/bin" "x" 2; exe "/bin" "y" 3];
                        last := Some 2%nat |})
              (exe "/bin" "x" 1))
    as (sum & g' & scr & Hs & Hm & _).
  - wf_globals_tac.
  - split; [cbn; lia|]. exists 2. split; [reflexivity|]. split; [reflexivity|].
    vm_compute. discriminate.
  - reflexivity.
  - reflexivity.
  - reflexivity.
  - discriminate.
  - vm_compute in Hs. injection Hs as _ <- _. discriminate Hm.
Qed.

(** ** bytesfmt *)

Lemma p1024_pow j : Z.pos (p1024 j) = 1024 ^ Z.of_nat j.
Proof.
  induction j as [|j IH]; [reflexivity|].
  cbn [p1024]. rewrite Pos2Z.inj_mul, IH, Nat2Z.inj_succ, Z.pow_succ_r by lia. lia.
Qed.

Lemma Qdiv_1024 a b : ((a # b) / inject_Z 1024)%Q = (a # (b * 1024)).
Proof. unfold Qdiv, Qmult, Qinv. cbn. f_equal. lia. Qed.

Lemma Qle_bool_1024 a b :
  Qle_bool (inject_Z 1024) (a # b) = (1024 * Z.pos b <=? a).
Proof. unfold Qle_bool. cbn. f_equal. lia. Qed.

(** The loop divides [j] times, where [j] is the first count, 6 at most,
    at which the value is below 1024. *)
Lemma bytesfmt_loop_spec k : forall (d : Z) (b : positive) (n : Z),
  n + Z.of_nat k = 6 ->
  exists j : nat,
    (j <= k)%nat /\
    bytesfmt_loop k (d # b) n = (d # (b * p1024 j), n + Z.of_nat j) /\
    (forall i : nat, (i < j)%nat -> 1024 * Z.pos (b * p1024 i) <= d) /\
    ((j < k)%nat -> d < 1024 * Z.pos (b * p1024 j)).
Proof.
  induction k as [|k IH]; intros d b n Hn.
  - exists 0%nat. cbn. rewrite Pos.mul_1_r, Z.add_0_r.
    repeat split; [lia | intros; lia | lia].
  - cbn [bytesfmt_loop]. rewrite Qle_bool_1024.
    replace (n <? 6) with true by (symmetry; apply Z.ltb_lt; lia).
    rewrite andb_true_r.
    destruct (1024 * Z.pos b <=? d) eqn:E.
    + apply Z.leb_le in E. rewrite Qdiv_1024.
      destruct (IH d (b * 1024)%positive (n + 1) ltac:(lia))
        as (j & Hj & Hrun & Hge & Hlt).
      exists (S j). split; [lia|]. split; [|split].
      * rewrite Hrun. cbn [p1024]. f_equal; [f_equal; lia | lia].
      * intros [|i] Hi.
        -- cbn [p1024]. rewrite Pos.mul_1_r. exact E.
        -- specialize (Hge i ltac:(lia)). cbn [p1024].
           replace (b * (p1024 i * 1024))%positive
             with (b * 1024 * p1024 i)%positive by lia. exact Hge.
      * intros Hk. specialize (Hlt ltac:(lia)). cbn [p1024].
        replace (b * (p1024 j * 1024))%positive
          with (b * 1024 * p1024 j)%positive by lia. exact Hlt.
    + apply Z.leb_gt in E. exists 0%nat. cbn [p1024].
      rewrite Pos.mul_1_r, Z.add_0_r.
      repeat split; [lia | intros; lia | intros; lia].
Qed.

Lemma bytesfmt_scale_spec n :
  exists j : nat,
    (j <= 6)%nat /\
    bytesfmt_scale n = (double_of_size_t n # p1024 j, Z.of_nat j) /\
    (forall i : nat, (i < j)%nat -> 1024 ^ Z.of_nat (S i) <= double_of_size_t n) /\
    ((j < 6)%nat -> double_of_size_t n < 1024 ^ Z.of_nat (S j)).
Proof.
  destruct (bytesfmt_loop_spec 6 (double_of_size_t n) 1 0 eq_refl)
    as (j & Hj & Hrun & Hge & Hlt).
  exists j. split; [assumption|]. split; [|split].
  - unfold bytesfmt_scale, inject_Z. rewrite Hrun. f_equal.
  - intros i Hi. specialize (Hge i Hi).
    rewrite Pos.mul_1_l, p1024_pow in Hge.
    rewrite Nat2Z.inj_succ, Z.pow_succ_r by lia. exact Hge.
  - intros Hk. specialize (Hlt Hk).
    rewrite Pos.mul_1_l, p1024_pow in Hlt.
    rewrite Nat2Z.inj_succ, Z.pow_succ_r by lia. exact Hlt.
Qed.

(** Converting to [double] does not take a count of at least 2^60 below
    2^60. *)
Lemma double_of_size_t_ge n : 2 ^ 60 <= n -> 2 ^ 60 <= double_of_size_t n.
Proof.
  intros Hn. unfold double_of_size_t.
  destruct (n <? 2 ^ 53) eqn:E; [assumption|].
  apply Z.ltb_ge in E.
  assert (H60 : 60 <= Z.log2 n).
  { change 60 with (Z.log2 (2 ^ 60)). now apply Z.log2_le_mono. }
  set (e := Z.log2 n - 52).
  assert (He : 0 < 2 ^ e) by (apply Z.pow_pos_nonneg; lia).
  assert (Hq : 2 ^ 52 <= n / 2 ^ e).
  { apply Z.div_le_lower_bound; [assumption|].
    rewrite <- Z.pow_add_r by lia.
    replace (e + 52) with (Z.log2 n) by lia.
    apply Z.log2_spec. lia. }
  assert (Hlow : 2 ^ 60 <= 2 ^ 52 * 2 ^ e).
  { rewrite <- Z.pow_add_r by lia. apply Z.pow_le_mono_r; lia. }
  destruct (_ || _); nia.
Qed.

Lemma length_append (a b : string) :
  String.length (a ++ b) = (String.length a + String.length b)%nat.
Proof. induction a as [|c a IH]; cbn; [reflexivity | now rewrite IH]. Qed.

Lemma truncate_short n s : (String.length s <= n)%nat -> truncate n s = s.
Proof.
  revert n. induction s as [|c s IH]; intros [|n] H; cbn in *;
    try reflexivity; [lia|].
  f_equal. apply IH. lia.
Qed.

Lemma truncate_length n s : (String.length (truncate n s) <= n)%nat.
Proof.
  revert s. induction n as [|n IH]; intros [|c s]; cbn; try lia.
  specialize (IH s). lia.
Qed.

Lemma utoa_length k : forall z acc,
  (String.length (utoa k z acc) <= k + String.length acc)%nat.
Proof.
  induction k as [|k IH]; intros z acc; cbn; [lia|].
  destruct (z / 10 =? 0); cbn; [lia|].
  etransitivity; [apply IH|]. cbn. lia.
Qed.

Lemma fmt_2f_length c : (String.length (fmt_2f c) <= 23)%nat.
Proof. unfold fmt_2f. etransitivity; [apply utoa_length|]. cbn. lia. Qed.

(** C8. The four values of the specification, and the rule behind them:
    the value is divided by 1024 as long as it is at least 1024 and fewer
    than 6 divisions were made, the number of divisions selects the unit,
    and a count of at least 1024^6 is printed in EiB with two decimals. *)
Theorem bytesfmt_correct :
  bytesfmt 0 = "0.00 B" /\
  bytesfmt 1024 = "1.00 KiB" /\
  bytesfmt 1536 = "1.50 KiB" /\
  bytesfmt (1024 ^ 6) = "1.00 EiB" /\
  (forall n, exists j : nat,
     (j <= 6)%nat /\
     bytesfmt_scale n = (double_of_size_t n # p1024 j, Z.of_nat j) /\
     (forall i : nat, (i < j)%nat -> 1024 ^ Z.of_nat (S i) <= double_of_size_t n) /\
     ((j < 6)%nat -> double_of_size_t n < 1024 ^ Z.of_nat (S j))) /\
  (forall n, 1024 ^ 6 <= n ->
     bytesfmt n = fmt_2f (double_of_size_t n # p1024 6) ++ " EiB").
Proof.
  split; [vm_compute; reflexivity|].
  split; [vm_compute; reflexivity|].
  split; [vm_compute; reflexivity|].
  split; [vm_compute; reflexivity|].
  split; [apply bytesfmt_scale_spec|].
  intros n Hn.
  destruct (bytesfmt_scale_spec n) as (j & Hj & Hscale & _ & Hlt).
  pose proof (double_of_size_t_ge n Hn) as Hd.
  assert (j = 6%nat) as ->.
  { destruct (decide (j = 6%nat)) as [|Hne]; [assumption|].
    specialize (Hlt ltac:(lia)).
    assert (1024 ^ Z.of_nat (S j) <= 1024 ^ 6)
      by (apply Z.pow_le_mono_r; lia).
    change (1024 ^ 6) with (2 ^ 60) in *. lia. }
  unfold bytesfmt. rewrite Hscale. cbn [Z.to_nat Z.of_nat Pos.to_nat].
  change (default "" (units !! Z.to_nat (Z.of_nat 6))) with "EiB".
  unfold snprintf_s. apply truncate_short.
  rewrite length_append. pose proof (fmt_2f_length (double_of_size_t n # p1024 6)).
  cbn [Nat.pred String.length append]. lia.
Qed.

(** ** The search-path resolver *)

Lemma is_delim_colon c : is_delim ":" c = (byte_of c =? byte_of ":").
Proof. cbn. apply orb_false_r. Qed.

Lemma tokens_of_skip s : tokens_of (skip_delims ":" s) = tokens_of s.
Proof.
  induction s as [|c s IH]; [reflexivity|].
  cbn [skip_delims]. rewrite is_delim_colon.
  destruct (byte_of c =? byte_of ":") eqn:E; [|reflexivity].
  rewrite IH. unfold tokens_of, nonempty. cbn [split_on]. rewrite E.
  now rewrite filter_cons_False by (cbn; lia).
Qed.

Lemma skip_delims_length s :
  (String.length (skip_delims ":" s) <= String.length s)%nat.
Proof.
  induction s as [|c s IH]; cbn [skip_delims]; [lia|].
  destruct (is_delim ":" c); cbn [String.length] in *; lia.
Qed.

Lemma skip_delims_head s c s' :
  skip_delims ":" s = String c s' -> is_delim ":" c = false.
Proof.
  induction s as [|d s IH]; cbn [skip_delims]; [discriminate|].
  destruct (is_delim ":" d) eqn:E; [assumption|].
  intros [= <- <-]. assumption.
Qed.

(** The token that [span_token] cuts is the first segment, and the text it
    keeps holds the others. *)
Lemma span_token_split s :
  exists xs,
    split_on ":" s = fst (span_token ":" s) :: xs /\
    nonempty xs = tokens_of (snd (span_token ":" s)).
Proof.
  induction s as [|c s (xs & Hs & Hx)].
  - exists []. now cbn.
  - cbn [span_token split_on]. rewrite is_delim_colon.
    destruct (byte_of c =? byte_of ":").
    + exists (split_on ":" s). now cbn.
    + destruct (span_token ":" s) as [t rest]. cbn [fst snd] in *.
      rewrite Hs. now exists xs.
Qed.

Lemma span_token_length s :
  (String.length (snd (span_token ":" s)) <= Nat.pred (String.length s))%nat.
Proof.
  induction s as [|c s IH]; [cbn; lia|].
  cbn [span_token]. destruct (is_delim ":" c); [cbn; lia|].
  destruct (span_token ":" s) as [t rest]. cbn [fst snd String.length] in *. lia.
Qed.

Lemma strtok_tokens s :
  pending (fst (strtok s ":")) (snd (strtok s ":")) = tokens_of s.
Proof.
  unfold strtok. rewrite <- (tokens_of_skip s).
  destruct (skip_delims ":" s) as [|c s1] eqn:E; [reflexivity|].
  pose proof (skip_delims_head s c s1 E) as Hc.
  destruct (span_token_split (String c s1)) as (xs & Hs & Hx).
  cbn [span_token] in *. rewrite Hc in *.
  destruct (span_token ":" s1) as [t rest]. cbn [fst snd pending] in *.
  unfold tokens_of at 2. rewrite Hs. unfold nonempty at 1.
  rewrite filter_cons_True by (cbn; lia). f_equal. symmetry. exact Hx.
Qed.

Lemma strtok_length s t :
  fst (strtok s ":") = Some t ->
  (String.length (snd (strtok s ":")) < String.length s)%nat.
Proof.
  unfold strtok. pose proof (skip_delims_length s) as Hl.
  destruct (skip_delims ":" s) as [|c s1] eqn:E; [discriminate|].
  pose proof (span_token_length (String c s1)) as Hsp.
  destruct (span_token ":" (String c s1)) as [t' rest].
  cbn [fst snd String.length Nat.pred] in *. intros _. lia.
Qed.

Lemma take_insert_snoc {A} (l : list A) n x :
  (n < length l)%nat -> take (S n) (<[n := x]> l) = (take n l ++ [x])%list.
Proof.
  intros H. rewrite (take_S_r _ _ x) by now apply list_lookup_insert_eq.
  now rewrite take_insert_ge by lia.
Qed.

(** The loop stores the pending tokens in order, as long as [pv] has room. *)
Lemma parsepath_loop_spec k : forall token kept (pv : pv_t) psiz,
  (forall t, token = Some t -> (String.length kept < k)%nat) ->
  0 <= psiz < MAXPATHS ->
  length pv = Z.to_nat MAXPATHS ->
  let stored := take (Z.to_nat (MAXPATHS - psiz)) (pending token kept) in
  exists pv',
    parsepath_loop k token kept pv psiz =
      Some (Done (pv', psiz + Z.of_nat (length stored))) /\
    length pv' = Z.to_nat MAXPATHS /\
    search_paths pv' (psiz + Z.of_nat (length stored)) =
      (search_paths pv psiz ++ (Some <$> stored))%list.
Proof.
  unfold MAXPATHS.
  induction k as [|k IH]; intros token kept pv psiz Hk Hp Hlen;
    (destruct token as [t|];
     [| exists pv; cbn [pending]; rewrite take_nil; cbn [length fmap list_fmap];
        rewrite Z.add_0_r, app_nil_r; now repeat split]).
  - specialize (Hk t eq_refl). lia.
  - specialize (Hk t eq_refl).
    cbn [parsepath_loop pending].
    destruct (decide (Z.to_nat psiz < length pv)%nat) as [Hin|]; [|lia].
    rewrite size_t_small
      by (unfold SIZE_WIDTH; change (2 ^ 64) with 18446744073709551616; lia).
    unfold MAXPATHS.
    replace (Z.to_nat (512 - psiz)) with (S (Z.to_nat (512 - (psiz + 1)))) by lia.
    cbn [take length fmap list_fmap].
    destruct (512 <=? psiz + 1) eqn:E.
    + apply Z.leb_le in E.
      replace (Z.to_nat (512 - (psiz + 1))) with 0%nat by lia.
      rewrite take_0. cbn [length fmap list_fmap].
      exists (<[Z.to_nat psiz := Some t]> pv).
      split; [reflexivity|]. split; [now rewrite length_insert|].
      unfold search_paths.
      replace (Z.to_nat (psiz + Z.of_nat 1)) with (S (Z.to_nat psiz)) by lia.
      now rewrite take_insert_snoc.
    + apply Z.leb_gt in E.
      pose proof (strtok_tokens kept) as Htok.
      pose proof (strtok_length kept) as Hsl.
      destruct (strtok kept ":") as [token' kept']. cbn [fst snd] in *.
      destruct (IH token' kept' (<[Z.to_nat psiz := Some t]> pv) (psiz + 1))
        as (pv' & Hrun & Hlen' & Hsp).
      * intros t' ->. specialize (Hsl t' eq_refl). lia.
      * lia.
      * now rewrite length_insert.
      * unfold MAXPATHS in *. rewrite Htok in *.
        exists pv'. split; [|split; [assumption|]].
        -- rewrite Hrun. do 3 f_equal. lia.
        -- replace (psiz + Z.of_nat (S (length (take (Z.to_nat (512 - (psiz + 1))) (tokens_of kept)))))
             with (psiz + 1 + Z.of_nat (length (take (Z.to_nat (512 - (psiz + 1))) (tokens_of kept))))
             by lia.
           rewrite Hsp. unfold search_paths.
           replace (Z.to_nat (psiz + 1)) with (S (Z.to_nat psiz)) by lia.
           rewrite take_insert_snoc by assumption.
           now rewrite <- app_assoc.
Qed.

(** The bound on the iterations of the loop of [parsepath] is never
    reached: each call of [strtok] shortens the text that is kept. *)
Lemma parsepath_loop_total k : forall token kept (pv : pv_t) psiz,
  (forall t, token = Some t -> (String.length kept < k)%nat) ->
  is_Some (parsepath_loop k token kept pv psiz).
Proof.
  induction k as [|k IH]; intros [t|] kept pv psiz Hk;
    try (cbn; eauto; fail).
  - specialize (Hk t eq_refl). lia.
  - specialize (Hk t eq_refl). cbn [parsepath_loop].
    destruct (decide _); [|eauto].
    destruct (MAXPATHS <=? _); [eauto|].
    pose proof (strtok_length kept) as Hsl.
    destruct (strtok kept ":") as [token' kept']. cbn [fst snd] in Hsl.
    apply IH. intros t' ->. specialize (Hsl t' eq_refl). lia.
Qed.

Lemma parsepath_total PATH (pv : pv_t) psiz : is_Some (parsepath PATH pv psiz).
Proof.
  destruct PATH as [p|]; cbn [parsepath]; [|eauto].
  pose proof (strtok_length p) as Hsl.
  destruct (strtok p ":") as [token kept]. cbn [fst snd] in Hsl.
  apply parsepath_loop_total. intros t ->. specialize (Hsl t eq_refl). lia.
Qed.

Lemma nonempty_Forall l : Forall (λ t, t <> EmptyString) (nonempty l).
Proof.
  apply Forall_forall. intros t Ht.
  apply list_elem_of_filter in Ht as [Ht _]. intros ->. now apply Ht.
Qed.

Lemma parsepath_spec (p : string) (pv : pv_t) (psiz : Z) :
  0 <= psiz < MAXPATHS ->
  length pv = Z.to_nat MAXPATHS ->
  exists pv',
    parsepath (Some p) pv psiz =
      Some (Done (pv', psiz + Z.of_nat (length (take (Z.to_nat (MAXPATHS - psiz))
                                                  (tokens_of p))))) /\
    length pv' = Z.to_nat MAXPATHS /\
    search_paths pv' (psiz + Z.of_nat (length (take (Z.to_nat (MAXPATHS - psiz))
                                                 (tokens_of p)))) =
      (search_paths pv psiz ++
       (Some <$> take (Z.to_nat (MAXPATHS - psiz)) (tokens_of p)))%list.
Proof.
  intros Hp Hlen. unfold parsepath.
  pose proof (strtok_tokens p) as Htok.
  pose proof (strtok_length p) as Hsl.
  destruct (strtok p ":") as [token kept]. cbn [fst snd] in *.
  rewrite <- Htok.
  apply parsepath_loop_spec; [|assumption|assumption].
  intros t ->. specialize (Hsl t eq_refl). lia.
Qed.

(** C6, as amended. [parsepath] cuts the value of [PATH] at each [':'] and
    stores the segments that are not empty, in order, after the [psiz]
    paths already there and as long as [pv] has room; an empty segment
    (two [':'] in a row, or one at either end) gives no entry. *)
Theorem parsepath_skips_empty_segments (p : string) (pv : pv_t) (psiz : Z) :
  0 <= psiz < MAXPATHS ->
  length pv = Z.to_nat MAXPATHS ->
  exists pv' stored,
    stored = take (Z.to_nat (MAXPATHS - psiz)) (tokens_of p) /\
    parsepath (Some p) pv psiz =
      Some (Done (pv', psiz + Z.of_nat (length stored))) /\
    search_paths pv' (psiz + Z.of_nat (length stored)) =
      (search_paths pv psiz ++ (Some <$> stored))%list /\
    Forall (λ t, t <> EmptyString) stored.
Proof.
  intros Hp Hlen.
  destruct (parsepath_spec p pv psiz Hp Hlen) as (pv' & Hrun & _ & Hsp).
  exists pv', (take (Z.to_nat (MAXPATHS - psiz)) (tokens_of p)).
  split; [reflexivity|]. split; [assumption|]. split; [assumption|].
  apply Forall_take, nonempty_Forall.
Qed.

Lemma parsepath_skips_empty_segments_witness :
  exists pv',
    parsepath (Some ":/bin::/usr/bin:") pv_init 0 = Some (Done (pv', 2)) /\
    search_paths pv' 2 = [Some "/bin"; Some "/usr/bin"].
Proof.
  destruct (parsepath_skips_empty_segments ":/bin::/usr/bin:" pv_init 0)
    as (pv' & stored & -> & Hrun & Hsp & _).
  - unfold MAXPATHS. lia.
  - reflexivity.
  - exists pv'. split; [exact Hrun | exact Hsp].
Defined.

(** C6 as it is stated fails: for ["a::b"] the path list is ["a"], ["b"],
    with no empty entry between them. *)
Lemma empty_segment_not_kept :
  ~ (forall p, exists pv' psiz',
       parsepath (Some p) pv_init 0 = Some (Done (pv', psiz')) /\
       search_paths pv' psiz' = Some <$> split_on ":" p).
Proof.
  intros H. destruct (H "a::b") as (pv' & psiz' & Hrun & Hsp).
  vm_compute in Hrun. injection Hrun as <- <-.
  vm_compute in Hsp. discriminate Hsp.
Qed.

(** C7. With no path on the command line, a [PATH] of more than 512
    entries is not a fatal error: the first 512 are taken and the others
    dropped. *)
Theorem long_PATH_truncated (Pflag : bool) (p : string) :
  (Z.to_nat MAXPATHS < length (tokens_of p))%nat ->
  exists pv',
    resolve [] Pflag (Some p) = Some (Done (pv', MAXPATHS)) /\
    search_paths pv' MAXPATHS = Some <$> take (Z.to_nat MAXPATHS) (tokens_of p).
Proof.
  intros Hlong. unfold resolve.
  change (size_t (Z.of_nat (length []))) with 0.
  cbn [Z.leb Z.compare orb].
  destruct (parsepath_spec p pv_init 0) as (pv' & Hrun & _ & Hsp).
  { unfold MAXPATHS. lia. }
  { reflexivity. }
  rewrite Z.sub_0_r, Z.add_0_l in *.
  rewrite length_take, Nat.min_l in * by lia.
  rewrite Z2Nat.id in * by (unfold MAXPATHS; lia).
  rewrite Hrun. exists pv'. split; [reflexivity | exact Hsp].
Qed.

Lemma long_PATH_truncated_witness :
  exists pv',
    resolve [] false (Some (PATH_of 513)) = Some (Done (pv', 512)) /\
    search_paths pv' 512 = replicate 512 (Some "/d").
Proof.
  destruct (long_PATH_truncated false (PATH_of 513)) as (pv' & Hrun & Hsp).
  - vm_compute. lia.
  - exists pv'. split; [exact Hrun|].
    unfold MAXPATHS in Hsp. rewrite Hsp. vm_compute. reflexivity.
Defined.

(** ** Index construction *)

Section InitProps.

Variable opendir : string -> option (list string).
Variable access_X_OK : string -> bool.
Variable stat : string -> option Z.
Variable realloc : Z -> bool.

(** The record that the entry [d_name] of the directory [dir_path] gives
    rise to, if it is neither a pseudo-entry nor fails a check. *)
Definition entry_record (dir_path d_name : string) : option exe_t :=
  if (strcmp d_name "." =? 0) || (strcmp d_name ".." =? 0) then None
  else
    let buf := truncate 4095 (dir_path ++ "/" ++ d_name) in
    if access_X_OK buf then
      match stat buf with
      | Some st_size =>
          Some {| name := truncate 2047 d_name;
                  path := truncate 2047 buf;
                  siz := size_t st_size |}
      | None => None
      end
    else None.

(** The records of a search path, in the order of [readdir]. *)
Definition records_of_dir (dir_path : string) : list exe_t :=
  match opendir dir_path with
  | Some entries => omap (entry_record dir_path) entries
  | None => []
  end.

Lemma scan_dir_spec dir_path entries : forall ix ix',
  scan_dir access_X_OK stat realloc dir_path entries ix = Done ix' ->
  ix_ev ix' = (ix_ev ix ++ omap (entry_record dir_path) entries)%list.
Proof.
  induction entries as [|e entries IH]; intros ix ix' Hrun.
  - injection Hrun as <-. cbn. now rewrite app_nil_r.
  - cbn [scan_dir omap list_omap] in *. unfold entry_record at 1.
    unfold snprintf_s in *. cbn [Nat.pred] in *.
    destruct ((strcmp e "." =? 0) || (strcmp e ".." =? 0)); [now apply IH|].
    destruct (access_X_OK _); cbn [negb] in *; [|now apply IH].
    destruct (stat _) as [sz|]; [|now apply IH].
    destruct (ix_evsiz ix =? ix_evcap ix).
    + destruct (realloc _); cbn in Hrun; [|discriminate].
      apply IH in Hrun. cbn in Hrun. now rewrite <- app_assoc in Hrun.
    + cbn in Hrun. apply IH in Hrun. cbn in Hrun.
      now rewrite <- app_assoc in Hrun.
Qed.

Lemma scan_paths_spec (pv : pv_t) k : forall n ix ix',
  scan_paths opendir access_X_OK stat realloc pv k n ix = Done ix' ->
  exists dirs,
    take k (drop n pv) = Some <$> dirs /\
    ix_ev ix' = (ix_ev ix ++ (dirs ≫= records_of_dir))%list.
Proof.
  induction k as [|k IH]; intros n ix ix' Hrun.
  - injection Hrun as <-. exists []. cbn. now rewrite app_nil_r.
  - cbn [scan_paths] in Hrun.
    destruct (pv !! n) as [[p|]|] eqn:Hn; try discriminate.
    assert (Hd : take (S k) (drop n pv) = Some p :: take k (drop (S n) pv)).
    { rewrite (drop_S _ _ _ Hn). reflexivity. }
    destruct (opendir p) as [entries|] eqn:Ho.
    + destruct (scan_dir _ _ _ p entries ix) as [ix1| |] eqn:Hs;
        cbn in Hrun; try discriminate.
      apply scan_dir_spec in Hs.
      destruct (IH _ _ _ Hrun) as (dirs & Ht & Hev).
      exists (p :: dirs). split; [now rewrite Hd, Ht|].
      rewrite Hev, Hs, bind_cons. unfold records_of_dir at 2. rewrite Ho.
      now rewrite <- app_assoc.
    + destruct (IH _ _ _ Hrun) as (dirs & Ht & Hev).
      exists (p :: dirs). split; [now rewrite Hd, Ht|].
      rewrite Hev, bind_cons. unfold records_of_dir at 2. now rewrite Ho.
Qed.

Lemma entry_record_bounds dir_path d_name r :
  entry_record dir_path d_name = Some r ->
  name r = truncate 2047 d_name /\
  path r = truncate 2047 (truncate 4095 (dir_path ++ "/" ++ d_name)) /\
  (String.length (name r) <= 2047)%nat /\
  (String.length (path r) <= 2047)%nat.
Proof.
  unfold entry_record.
  destruct (_ || _); [discriminate|].
  destruct (access_X_OK _); [|discriminate].
  destruct (stat _); [|discriminate].
  intros H. apply (inj Some) in H. subst r.
  split; [reflexivity|]. split; [reflexivity|].
  split; apply truncate_length.
Qed.

(** C10. In the index that [init] builds, every record comes from a
    directory entry of a search path; its name is the entry's name cut to
    2047 bytes and its path the directory, a slash and the name, cut to
    2047 bytes; and every entry that is executable and can be examined has
    its record, however long its name or path. *)
Theorem index_names_truncated (pv : pv_t) (psiz : Z) (ix : index) :
  init opendir access_X_OK stat realloc pv psiz = Done ix ->
  exists dirs,
    search_paths pv psiz = Some <$> dirs /\
    ix_ev ix = dirs ≫= records_of_dir /\
    (forall r, r ∈ ix_ev ix ->
       (String.length (name r) <= 2047)%nat /\
       (String.length (path r) <= 2047)%nat /\
       exists dir_path entries d_name,
         dir_path ∈ dirs /\ opendir dir_path = Some entries /\
         d_name ∈ entries /\
         name r = truncate 2047 d_name /\
         path r = truncate 2047 (truncate 4095 (dir_path ++ "/" ++ d_name))) /\
    (forall dir_path entries d_name sz,
       dir_path ∈ dirs -> opendir dir_path = Some entries ->
       d_name ∈ entries ->
       d_name <> "." -> d_name <> ".." ->
       access_X_OK (truncate 4095 (dir_path ++ "/" ++ d_name)) = true ->
       stat (truncate 4095 (dir_path ++ "/" ++ d_name)) = Some sz ->
       {| name := truncate 2047 d_name;
          path := truncate 2047 (truncate 4095 (dir_path ++ "/" ++ d_name));
          siz := size_t sz |} ∈ ix_ev ix).
Proof.
  unfold init. intros Hrun.
  destruct (scan_paths _ _ _ _ pv (Z.to_nat psiz) 0 _) as [ix0| |] eqn:Hs;
    cbn in Hrun; try discriminate.
  destruct (ix_evsiz ix0 =? 0); [discriminate|]. injection Hrun as <-.
  destruct (scan_paths_spec _ _ _ _ _ Hs) as (dirs & Ht & Hev).
  rewrite drop_0 in Ht. cbn in Hev.
  exists dirs. split; [exact Ht|]. split; [exact Hev|]. split.
  - intros r Hr. rewrite Hev in Hr.
    apply list_elem_of_bind in Hr as (d & Hr & Hd).
    unfold records_of_dir in Hr.
    destruct (opendir d) as [entries|] eqn:Ho; [|now apply elem_of_nil in Hr].
    apply list_elem_of_omap in Hr as (e & He & Hrec).
    destruct (entry_record_bounds d e r Hrec) as (Hn & Hp & Hln & Hlp).
    split; [assumption|]. split; [assumption|].
    exists d, entries, e. auto.
  - intros d entries e sz Hd Ho He Hdot Hdotdot Hacc Hst.
    rewrite Hev. apply list_elem_of_bind. exists d. split; [|assumption].
    unfold records_of_dir. rewrite Ho.
    apply list_elem_of_omap. exists e. split; [assumption|].
    unfold entry_record.
    rewrite !strcmp_neqb by assumption. cbn [orb].
    now rewrite Hacc, Hst.
Qed.

End InitProps.

Lemma index_names_truncated_witness :
  exists ix,
    init one_dir (λ _, true) (λ _, Some 7) (λ _, true)
         (<[0%nat := Some "/bin"]> pv_init) 1 = Done ix /\
    (forall r, r ∈ ix_ev ix ->
       (String.length (name r) <= 2047)%nat /\
       (String.length (path r) <= 2047)%nat) /\
    {| name := truncate 2047 (long_name 3000);
       path := truncate 2047 (truncate 4095 ("/bin" ++ "/" ++ long_name 3000));
       siz := size_t 7 |} ∈ ix_ev ix /\
    truncate 2047 (long_name 3000) <> long_name 3000.
Proof.
  destruct (init one_dir (λ _, true) (λ _, Some 7) (λ _, true)
              (<[0%nat := Some "/bin"]> pv_init) 1) as [ix| |] eqn:E.
  - exists ix. split; [reflexivity|].
    destruct (index_names_truncated one_dir (λ _, true) (λ _, Some 7) (λ _, true)
                (<[0%nat := Some "/bin"]> pv_init) 1 ix E)
      as (dirs & Hd & _ & Hb & Hin).
    split; [|split].
    + intros r Hr. destruct (Hb r Hr) as (? & ? & _). now split.
    + apply (Hin "/bin" ["."; ".."; long_name 3000; "ls"]).
      * destruct dirs as [|d dirs]; [discriminate Hd|].
        injection Hd as <- _. apply list_elem_of_here.
      * reflexivity.
      * do 2 apply list_elem_of_further. apply list_elem_of_here.
      * discriminate.
      * discriminate.
      * reflexivity.
      * reflexivity.
    + intros H. apply (f_equal String.length) in H.
      vm_compute in H. discriminate H.
  - vm_compute in E. discriminate E.
  - vm_compute in E. discriminate E.
Defined.

Lemma bytesfmt_correct_witness :
  1024 ^ 6 <= 2 ^ 64 - 1 /\ bytesfmt (2 ^ 64 - 1) = "16.00 EiB".
Proof.
  split; [vm_compute; discriminate|].
  refine (eq_trans
            (proj2 (proj2 (proj2 (proj2 (proj2 bytesfmt_correct)))) (2 ^ 64 - 1) _) _).
  - vm_compute. discriminate.
  - vm_compute. reflexivity.
Defined.

(** * Further properties *)

(** ** The selection loop, whatever the query *)

(** What one iteration does: nothing at all, or, at a record that contains
    the query, one more line and a selection that is set. *)
Lemma search_body_inv cfg q sum n st st' :
  (loc_s st = true -> is_Some (selected (glob st))) ->
  search_body cfg q sum n st = Done st' ->
  st' = st \/
  exists r t,
    ev (glob st') !! n = Some r /\
    substring_of q (name r) /\
    selected (glob st') = Some t /\
    loc_fi st' = size_t (loc_fi st + 1) /\
    screen st' = (screen st ++ hit_draws cfg t r (loc_fi st) sum)%list.
Proof.
  intros Hsel. unfold search_body, load.
  destruct (ev (glob st) !! n) as [r|] eqn:Hr; [|discriminate]. cbn.
  destruct (strcmp (name r) q =? 0) eqn:Hcmp.
  - unfold store. destruct (last (glob st)) as [m|] eqn:Hl; [|discriminate].
    destruct (decide (m < length (ev (glob st)))%nat) as [Hlt|]; [|discriminate].
    cbn.
    assert (Hn : <[m := r]> (ev (glob st)) !! n = Some r).
    { destruct (decide (m = n)) as [->|Hd].
      - now apply list_lookup_insert_eq.
      - now rewrite list_lookup_insert_ne. }
    rewrite Hn. cbn.
    apply Z.eqb_eq, strcmp_eq in Hcmp. rewrite Hcmp, strstr_refl.
    unfold deref, load. cbn. rewrite list_lookup_insert_eq by assumption.
    intros Hd. right. exists r, r. unfold hit_draws, selected.
    destruct (mode cfg); cbn in Hd; injection Hd as <-; cbn;
      rewrite ?list_lookup_insert_eq by assumption;
      (split; [assumption|];
       split; [first [assumption | rewrite Hcmp; apply substring_of_refl]|];
       split; [reflexivity|]; split; [reflexivity|];
       rewrite ?app_nil_r, <- ?app_assoc, ?Hcmp; reflexivity).
  - cbn. rewrite Hr. cbn.
    destruct (strstr (name r) q) as [p|] eqn:Hs; [|intros [= <-]; now left].
    assert (Hsub : substring_of q (name r)) by (apply strstr_spec; eauto).
    destruct (loc_s st) eqn:Es.
    + destruct (Hsel eq_refl) as [t Ht]. unfold selected in Ht.
      destruct (last (glob st)) as [m|] eqn:Hl; [|discriminate].
      unfold deref, load. rewrite ?Hl, Ht.
      intros Hd. right. exists r, t. unfold hit_draws, selected.
      destruct (mode cfg); cbn in Hd; injection Hd as <-; cbn;
        rewrite ?Hl, ?Ht;
        (split; [first [assumption | reflexivity]|];
       split; [first [assumption | rewrite Hcmp; apply substring_of_refl]|];
       split; [reflexivity|]; split; [reflexivity|];
       rewrite ?app_nil_r, <- ?app_assoc, ?Hcmp; reflexivity).
    + unfold deref, load. cbn. rewrite Hr.
      intros Hd. right. exists r, r. unfold hit_draws, selected.
      destruct (mode cfg); cbn in Hd; injection Hd as <-; cbn;
        rewrite ?Hr;
        (split; [first [assumption | reflexivity]|];
       split; [first [assumption | rewrite Hcmp; apply substring_of_refl]|];
       split; [reflexivity|]; split; [reflexivity|];
       rewrite ?app_nil_r, <- ?app_assoc, ?Hcmp; reflexivity).
Qed.

(** A property of the loop state that every iteration keeps holds when the
    loop is left. *)
Lemma search_loop_invariant cfg q sum (P : frame -> Prop) :
  (forall n st st',
     P st -> loc_fi st <= size_t (nprompt cfg) ->
     search_body cfg q sum n st = Done st' -> P st') ->
  forall k n st st',
    P st -> search_loop cfg q sum k n st = Done st' -> P st'.
Proof.
  intros Hstep. induction k as [|k IH]; intros n st st' HP Hrun.
  - now injection Hrun as <-.
  - cbn [search_loop] in Hrun.
    destruct (loc_fi st <=? size_t (nprompt cfg)) eqn:E.
    + apply Z.leb_le in E.
      destruct (search_body cfg q sum n st) as [st1| |] eqn:Hb;
        cbn in Hrun; try discriminate.
      apply (IH (S n) st1); [|assumption]. now apply (Hstep n st).
    + now injection Hrun as <-.
Qed.

Lemma search_Done_inv cfg q g sum g' scr :
  search cfg q g = Done (sum, g', scr) ->
  exists st,
    search_loop cfg q sum (evsiz g) 0 (entry g) = Done st /\
    g' = glob st /\
    scr = (screen st ++ clear_rows cfg (loc_fi st))%list.
Proof.
  unfold search. destruct (matchCount q g) as [sum0| |]; cbn; try discriminate.
  destruct (search_loop cfg q sum0 (evsiz g) 0 (entry g)) as [st| |] eqn:E;
    cbn; try discriminate.
  intros [= <- <- <-]. now exists st.
Qed.

Lemma search_frame (cfg : config) (q : string) (g g' : globals)
    (sum : Z) (scr : list draw) :
  wf_globals g ->
  search cfg q g = Done (sum, g', scr) ->
  evsiz g' = evsiz g /\
  wf_globals g' /\
  (forall r, r ∈ ev g' -> r ∈ ev g) /\
  (forall j, ev g' !! j <> ev g !! j -> last g' = Some j).
Proof.
  intros Hwf Hs.
  destruct (search_Done_inv _ _ _ _ _ _ Hs) as (st & Hrun & -> & _).
  assert (HR : reachable q (ev g) st).
  { apply (reachable_run cfg q sum (ev g) (evsiz g) 0 (entry g));
      [|unfold evsiz; lia|exact Hrun].
    left. cbn. repeat split. intros m. apply wf_globals_last, Hwf. }
  destruct Hwf as [Hsz Hl0]. unfold wf_globals, evsiz in *.
  destruct HR as [(_ & Hev & Hv)|[m [_ Hl Hlen Hlt Hfr (k & rk & Hk & _ & Hmk)]]].
  - rewrite Hev. repeat split; try assumption.
    + destruct (last (glob st)) as [m|] eqn:E; [now apply Hv | exact I].
    + auto.
    + intros j Hj. now destruct Hj.
  - rewrite Hlen, Hl. repeat split; try assumption.
    + intros r Hr. apply list_elem_of_lookup in Hr as [j Hj].
      apply list_elem_of_lookup.
      destruct (decide (j = m)) as [->|Hd].
      * exists k. congruence.
      * exists j. now rewrite <- (Hfr j Hd).
    + intros j Hj. destruct (decide (j = m)) as [->|Hd]; [reflexivity|].
      now destruct Hj; apply Hfr.
Qed.

(** X1. Whatever the query, a search that returns leaves the index with
    the records it had or copies of them: the number of records is the
    same, [last] is null or points into the index, every record is one
    that was there before, and the only slot that can differ from before
    is the one [last] points at. *)
Theorem search_keeps_index (cfg : config) (q : string) (g g' : globals)
    (sum : Z) (scr : list draw) :
  wf_globals g ->
  search cfg q g = Done (sum, g', scr) ->
  evsiz g' = evsiz g /\
  wf_globals g' /\
  (forall r, r ∈ ev g' -> r ∈ ev g) /\
  (forall j, ev g' !! j <> ev g !! j -> last g' = Some j).
Proof. apply search_frame. Qed.

Lemma search_keeps_index_witness :
  evsiz {| ev := [exe "/bin" "foo" 100; exe "/bin" "foo" 100]; last := Some 1%nat |}
  = 2%nat.
Proof.
  refine (proj1 (search_keeps_index cfg_default "foo"
                   {| ev := [exe "/bin" "foo" 100; exe "/bin" "foobar" 200];
                      last := Some 1%nat |}
                   {| ev := [exe "/bin" "foo" 100; exe "/bin" "foo" 100];
                      last := Some 1%nat |} 2 _ _ _)).
  - wf_globals_tac.
  - vm_compute. reflexivity.
Defined.

Lemma names_drawn_app a b :
  names_drawn (a ++ b) = (names_drawn a + names_drawn b)%nat.
Proof.
  induction a as [|d a IH]; [reflexivity|].
  destruct d; cbn; rewrite IH; reflexivity.
Qed.

Lemma names_drawn_clear cfg fi : names_drawn (clear_rows cfg fi) = 0%nat.
Proof.
  unfold clear_rows. induction (seqZ fi _) as [|z l IH]; [reflexivity|].
  exact IH.
Qed.

(** X2. The display cap: a search draws at most [nprompt] names, and none
    outside the long mode. *)
Theorem names_drawn_capped (cfg : config) (q : string) (g g' : globals)
    (sum : Z) (scr : list draw) :
  wf_config cfg ->
  search cfg q g = Done (sum, g', scr) ->
  Z.of_nat (names_drawn scr) <= nprompt cfg /\
  (mode cfg <> MODELONG -> names_drawn scr = 0%nat).
Proof.
  intros Hcfg Hs.
  destruct (search_Done_inv _ _ _ _ _ _ Hs) as (st & Hrun & _ & ->).
  pose proof (size_t_nprompt cfg Hcfg) as Hnp.
  set (P := fun st : frame =>
              (loc_s st = true -> is_Some (selected (glob st))) /\
              1 <= loc_fi st <= nprompt cfg + 1 /\
              Z.of_nat (names_drawn (screen st)) =
                match mode cfg with MODELONG => loc_fi st - 1 | _ => 0 end).
  assert (HP : P st).
  { apply (search_loop_invariant cfg q sum P) with (k := evsiz g) (n := 0%nat)
                                                    (st := entry g);
      [|unfold P, wf_config in *; cbn; destruct (mode cfg); repeat split;
        (discriminate || lia)|exact Hrun].
    intros n s1 s2 (Hsel & Hfi & Hnm) Hguard Hb.
    destruct (search_body_inv _ _ _ _ _ _ Hsel Hb)
      as [->|(r & t & _ & _ & Ht & Hfi' & Hscr)]; [now repeat split|].
    rewrite Hnp in Hguard.
    assert (Hsz : size_t (loc_fi s1 + 1) = loc_fi s1 + 1).
    { apply size_t_small. unfold wf_config, INT_MAX, SIZE_WIDTH in *.
      change (2 ^ 64) with 18446744073709551616. lia. }
    split; [intros _; rewrite Ht; eauto|]. split; [lia|].
    rewrite Hscr, names_drawn_app, Hfi', Hsz. unfold hit_draws.
    destruct (mode cfg); cbn; lia. }
  destruct HP as (_ & Hfi & Hnm).
  rewrite names_drawn_app, names_drawn_clear, Nat.add_0_r.
  split.
  - destruct (mode cfg); lia.
  - intros Hm. destruct (mode cfg); [lia | lia | contradiction].
Qed.

Lemma names_drawn_capped_witness :
  exists sum g' scr,
    search (cfg_cap 2) "f"
      {| ev := [exe "/bin" "fa" 1; exe "/bin" "fb" 2; exe "/bin" "fc" 3];
         last := None |} = Done (sum, g', scr) /\
    Z.of_nat (names_drawn scr) <= 2.
Proof.
  destruct (search (cfg_cap 2) "f"
              {| ev := [exe "/bin" "fa" 1; exe "/bin" "fb" 2; exe "/bin" "fc" 3];
                 last := None |}) as [[[sum g'] scr]| |] eqn:E.
  - exists sum, g', scr. split; [reflexivity|].
    refine (proj1 (names_drawn_capped (cfg_cap 2) "f" _ g' sum scr _ E)).
    unfold wf_config, INT_MAX. cbn. lia.
  - vm_compute in E. discriminate E.
  - vm_compute in E. discriminate E.
Defined.

Lemma last_summary_app a b :
  last_summary (a ++ b) =
    match last_summary b with
    | Some p => Some p
    | None => last_summary a
    end.
Proof.
  induction a as [|d a IH]; cbn.
  - now destruct (last_summary b).
  - destruct d; try exact IH.
    rewrite IH. now destruct (last_summary b), (last_summary a).
Qed.

Lemma last_summary_clear cfg fi : last_summary (clear_rows cfg fi) = None.
Proof.
  unfold clear_rows. induction (seqZ fi _) as [|z l IH]; [reflexivity|].
  exact IH.
Qed.

(** X3. In the short and the long mode the summary line tells what Enter
    would start: either a search draws no summary, and then it has changed
    neither the index nor [last]; or the last summary it draws shows the
    path of the record that [last] points at when it returns. *)
Theorem summary_shows_selection (cfg : config) (q : string) (g g' : globals)
    (sum : Z) (scr : list draw) :
  mode cfg <> MODELINE ->
  search cfg q g = Done (sum, g', scr) ->
  (last_summary scr = None /\ g' = g) \/
  (exists t, selected g' = Some t /\ last_summary scr = Some (path t)).
Proof.
  intros Hmode Hs.
  destruct (search_Done_inv _ _ _ _ _ _ Hs) as (st & Hrun & -> & ->).
  set (P := fun st : frame =>
              (loc_s st = true -> is_Some (selected (glob st))) /\
              ((last_summary (screen st) = None /\ glob st = g) \/
               (exists t, selected (glob st) = Some t /\
                          last_summary (screen st) = Some (path t)))).
  assert (HP : P st).
  { apply (search_loop_invariant cfg q sum P) with (k := evsiz g) (n := 0%nat)
                                                    (st := entry g);
      [|split; [discriminate | now left]|exact Hrun].
    intros n s1 s2 (Hsel & Hsum) _ Hb.
    destruct (search_body_inv _ _ _ _ _ _ Hsel Hb)
      as [->|(r & t & _ & _ & Ht & _ & Hscr)]; [now split|].
    split; [intros _; rewrite Ht; eauto|].
    right. exists t. split; [assumption|].
    rewrite Hscr, last_summary_app. unfold hit_draws.
    destruct (mode cfg); [reflexivity | contradiction | reflexivity]. }
  destruct HP as (_ & HP).
  rewrite last_summary_app, last_summary_clear. exact HP.
Qed.

Lemma summary_shows_selection_witness :
  exists sum g' scr t,
    search cfg_default "foo"
      {| ev := [exe "/bin" "foobar" 200; exe "/bin" "foo" 100]; last := None |}
    = Done (sum, g', scr) /\
    selected g' = Some t /\ last_summary scr = Some (path t).
Proof.
  destruct (search cfg_default "foo"
              {| ev := [exe "/bin" "foobar" 200; exe "/bin" "foo" 100];
                 last := None |}) as [[[sum g'] scr]| |] eqn:E.
  - destruct (summary_shows_selection cfg_default "foo" _ g' sum scr
                ltac:(discriminate) E) as [[Hn _]|(t & Ht & Hp)].
    + vm_compute in E. injection E as _ _ <-. discriminate Hn.
    + exists sum, g', scr, t. repeat split; assumption.
  - vm_compute in E. discriminate E.
  - vm_compute in E. discriminate E.
Defined.

Lemma count_matches_empty_take (l : list exe_t) n :
  (n <= length l)%nat -> count_matches "" (take n l) = n.
Proof.
  intros H. rewrite count_matches_all, length_take. lia.
Qed.

(** X4. The empty query (the state after the last typed byte is deleted)
    selects, in an index without an empty name, the record number
    [min nprompt evsiz] in index order, not the first one; the match count
    is the number of records and the index is not written. *)
Theorem empty_query_selects (cfg : config) (g : globals) :
  wf_config cfg ->
  wf_globals g ->
  ev g <> [] ->
  (forall r, r ∈ ev g -> name r <> EmptyString) ->
  exists scr,
    search cfg "" g =
      Done (Z.of_nat (evsiz g),
            {| ev := ev g;
               last := Some (Nat.pred (Z.to_nat (Z.min (nprompt cfg)
                                                       (Z.of_nat (evsiz g))))) |},
            scr).
Proof.
  intros Hcfg Hwf Hne Hnames.
  destruct (phase1_run cfg "" (Z.of_nat (count_matches "" (ev g))) (ev g) (last g)
              Hcfg (evsiz g) 0 (entry g))
    as (st & Hrun & [Hs Hev Hfi Hp]).
  - now apply phase1_entry.
  - unfold evsiz. lia.
  - intros i r _ Hr. apply Hnames. apply list_elem_of_lookup. eauto.
  - rewrite (search_unfold cfg "" g Hwf), Hrun. cbn.
    rewrite count_matches_all. eexists. f_equal. f_equal. f_equal.
    unfold pointed, evsiz in Hp. cbn [Nat.add] in Hp. rewrite before_all in Hp.
    rewrite count_matches_all in Hp.
    assert (Hlen : (0 < length (ev g))%nat).
    { destruct (ev g); [contradiction | cbn; lia]. }
    destruct Hp as [[Hz _]|(j & r & Hl & _ & Hr & _ & Hb)]; [lia|].
    pose proof (lookup_lt_Some _ _ _ Hr) as Hj.
    unfold before in Hb. rewrite count_matches_empty_take in Hb by lia.
    rewrite <- (globals_eta (glob st)), Hev, Hl. unfold evsiz.
    do 2 f_equal. lia.
Qed.

Lemma empty_query_selects_witness :
  exists scr,
    search (cfg_cap 2) ""
      {| ev := [exe "/bin" "a" 1; exe "/bin" "b" 2; exe "/bin" "c" 3]; last := None |}
    = Done (3, {| ev := [exe "/bin" "a" 1; exe "/bin" "b" 2; exe "/bin" "c" 3];
                  last := Some 1%nat |}, scr).
Proof.
  apply (empty_query_selects (cfg_cap 2)
           {| ev := [exe "/bin" "a" 1; exe "/bin" "b" 2; exe "/bin" "c" 3];
              last := None |}).
  - unfold wf_config, INT_MAX. cbn. lia.
  - wf_globals_tac.
  - discriminate.
  - each_record; discriminate.
Defined.

(** ** The interactive loop *)

Lemma keystroke_inv cfg c s s' :
  keystroke cfg c s = Done s' ->
  exists sum ds,
    search cfg (c_str (s_in s')) (s_glob s) = Done (sum, s_glob s', ds) /\
    s_in s' =
      if (c =? KEY_BACKSPACE) || (c =? 127) then
        if 0 <? Z.of_nat (String.length (s_in s)) then drop_last (s_in s)
        else s_in s
      else
        if Z.of_nat (String.length (s_in s)) <? 2048 - 1
        then s_in s ++ String (char_of c) EmptyString
        else s_in s.
Proof.
  unfold keystroke.
  destruct ((c =? KEY_BACKSPACE) || (c =? 127));
    [destruct (0 <? _) | destruct (_ <? 2048 - 1)];
    (destruct (search cfg _ (s_glob s)) as [[[sum g'] ds]| |] eqn:E;
     cbn; try discriminate; intros [= <-]; cbn; eauto).
Qed.

Lemma drop_last_length s :
  String.length (drop_last s) = Nat.pred (String.length s).
Proof.
  induction s as [|c s IH]; [reflexivity|].
  destruct s as [|d s]; [reflexivity|].
  cbn [drop_last String.length] in *. rewrite IH. reflexivity.
Qed.

Lemma c_str_length s : (String.length (c_str s) <= String.length s)%nat.
Proof.
  induction s as [|c s IH]; cbn; [lia|].
  destruct (byte_of c =? 0); cbn; lia.
Qed.

(** X5. The query never outgrows the buffer: whatever keys are typed,
    [in] holds at most 2047 bytes, and so does the query that [search]
    is called with. *)
Theorem query_bounded (cfg : config) (keys : list Z) (s s' : session)
    (newline : bool) :
  (String.length (s_in s) <= 2047)%nat ->
  loop_keys cfg keys s = Done (s', newline) ->
  (String.length (s_in s') <= 2047)%nat /\
  (String.length (c_str (s_in s')) <= 2047)%nat.
Proof.
  revert s. induction keys as [|k keys IH]; intros s Hlen Hrun.
  - injection Hrun as <- <-. pose proof (c_str_length (s_in s)). lia.
  - cbn [loop_keys] in Hrun. destruct (chtype k =? 10).
    + injection Hrun as <- <-. pose proof (c_str_length (s_in s)). lia.
    + destruct (keystroke cfg (chtype k) s) as [s1| |] eqn:Hk;
        cbn in Hrun; try discriminate.
      apply (IH s1); [|assumption].
      destruct (keystroke_inv _ _ _ _ Hk) as (sum & ds & _ & ->).
      destruct (_ || _).
      * destruct (0 <? _); [rewrite drop_last_length|]; lia.
      * destruct (_ <? 2048 - 1) eqn:E; [|lia].
        apply Z.ltb_lt in E. rewrite length_append. cbn. lia.
Qed.

Lemma query_bounded_witness :
  exists s',
    loop_keys cfg_default [102; 111; 127]
      {| s_glob := {| ev := [exe "/bin" "foo" 100]; last := None |};
         s_in := EmptyString; s_out := [] |} = Done (s', false) /\
    (String.length (s_in s') <= 2047)%nat.
Proof.
  destruct (loop_keys cfg_default [102; 111; 127]
              {| s_glob := {| ev := [exe "/bin" "foo" 100]; last := None |};
                 s_in := EmptyString; s_out := [] |})
    as [[s' nl]| |] eqn:E.
  - assert (nl = false) as -> by (vm_compute in E; now injection E as _ <-).
    exists s'. split; [reflexivity|].
    refine (proj1 (query_bounded cfg_default _ _ s' false _ E)). cbn. lia.
  - vm_compute in E. discriminate E.
  - vm_compute in E. discriminate E.
Defined.

Lemma truncate_app_full n : forall a b,
  String.length a = n -> truncate n (a ++ b) = a.
Proof.
  induction n as [|n IH]; intros [|c a] b H; try discriminate H.
  - now destruct b.
  - cbn [append truncate]. f_equal. apply IH. now injection H.
Qed.

Lemma append_assoc (a b c : string) : ((a ++ b) ++ c = a ++ (b ++ c))%string.
Proof. induction a as [|x a IH]; cbn; [reflexivity | now rewrite IH]. Qed.

Lemma append_empty_r (a : string) : (a ++ "")%string = a.
Proof. induction a as [|x a IH]; cbn; [reflexivity | now rewrite IH]. Qed.

Lemma loop_keys_typed cfg n keys : forall s s' newline,
  n = 2047%nat ->
  Forall (λ k, editing_key k = false) keys ->
  (String.length (s_in s) <= n)%nat ->
  loop_keys cfg keys s = Done (s', newline) ->
  newline = false /\ s_in s' = truncate n (s_in s ++ bytes_of_keys keys).
Proof.
  induction keys as [|k keys IH]; intros s s' nl Hn Hkeys Hlen Hrun.
  - injection Hrun as <- <-. split; [reflexivity|].
    cbn [bytes_of_keys]. rewrite append_empty_r. symmetry.
    now apply truncate_short.
  - apply Forall_cons in Hkeys as [Hk Hkeys]. unfold editing_key in Hk.
    apply orb_false_iff in Hk as [Hk Hnl].
    cbn [loop_keys] in Hrun. rewrite Hnl in Hrun.
    destruct (keystroke cfg (chtype k) s) as [s1| |] eqn:Hs;
      cbn in Hrun; try discriminate.
    destruct (keystroke_inv _ _ _ _ Hs) as (sum & ds & _ & Hin).
    rewrite Hk in Hin. cbn [bytes_of_keys].
    destruct (Z.of_nat (String.length (s_in s)) <? 2048 - 1) eqn:E.
    + apply Z.ltb_lt in E.
      destruct (IH s1 s' nl Hn Hkeys) as [-> ->]; [|assumption|].
      { rewrite Hin, length_append. cbn. lia. }
      split; [reflexivity|]. rewrite Hin, append_assoc. reflexivity.
    + apply Z.ltb_ge in E.
      destruct (IH s1 s' nl Hn Hkeys) as [-> ->]; [|assumption|].
      { rewrite Hin. lia. }
      split; [reflexivity|]. rewrite Hin.
      rewrite !truncate_app_full by lia. reflexivity.
Qed.

(** X6. Typed bytes are kept up to the size of the buffer and dropped
    beyond it: after keys none of which is a backspace or the newline,
    [in] holds the first 2047 of the bytes it held followed by one byte
    for each key. *)
Theorem typed_bytes_kept (cfg : config) (keys : list Z) (s s' : session)
    (newline : bool) :
  Forall (λ k, editing_key k = false) keys ->
  (String.length (s_in s) <= 2047)%nat ->
  loop_keys cfg keys s = Done (s', newline) ->
  newline = false /\
  s_in s' = truncate 2047 (s_in s ++ bytes_of_keys keys).
Proof. intros. now apply (loop_keys_typed cfg 2047 keys s). Qed.

Lemma typed_bytes_kept_witness :
  exists s',
    loop_keys cfg_default [108; 115]
      {| s_glob := {| ev := [exe "/bin" "foo" 100; exe "/bin" "ls" 50];
                      last := None |};
         s_in := EmptyString; s_out := [] |} = Done (s', false) /\
    s_in s' = "ls".
Proof.
  destruct (loop_keys cfg_default [108; 115]
              {| s_glob := {| ev := [exe "/bin" "foo" 100; exe "/bin" "ls" 50];
                              last := None |};
                 s_in := EmptyString; s_out := [] |})
    as [[s' nl]| |] eqn:E.
  - destruct (typed_bytes_kept cfg_default [108; 115]
                {| s_glob := {| ev := [exe "/bin" "foo" 100; exe "/bin" "ls" 50];
                                last := None |};
                   s_in := EmptyString; s_out := [] |} s' nl) as [-> Hin];
      [repeat constructor | cbn; lia | exact E |].
    exists s'. split; [reflexivity|]. rewrite Hin. vm_compute. reflexivity.
  - vm_compute in E. discriminate E.
  - vm_compute in E. discriminate E.
Defined.

Lemma loop_keys_frame cfg keys : forall s s' newline,
  wf_globals (s_glob s) ->
  loop_keys cfg keys s = Done (s', newline) ->
  wf_globals (s_glob s') /\
  evsiz (s_glob s') = evsiz (s_glob s) /\
  (forall r, r ∈ ev (s_glob s') -> r ∈ ev (s_glob s)).
Proof.
  induction keys as [|k keys IH]; intros s s' nl Hwf Hrun.
  - injection Hrun as <- <-. auto.
  - cbn [loop_keys] in Hrun. destruct (chtype k =? 10).
    + injection Hrun as <- <-. auto.
    + destruct (keystroke cfg (chtype k) s) as [s1| |] eqn:Hk;
        cbn in Hrun; try discriminate.
      destruct (keystroke_inv _ _ _ _ Hk) as (sum & ds & Hs & _).
      destruct (search_frame _ _ _ _ _ _ Hwf Hs) as (Hsz & Hwf1 & Hin & _).
      destruct (IH s1 s' nl Hwf1 Hrun) as (Hwf' & Hsz' & Hin').
      split; [assumption|]. split; [congruence|]. auto.
Qed.

Lemma loop_start_glob cfg psiz totsiz g s0 :
  loop_start cfg psiz totsiz g = Done s0 -> s_glob s0 = g.
Proof.
  unfold loop_start.
  destruct (mode cfg); [destruct (load (ev g) 0) | | destruct (load (ev g) 0)];
    cbn; try discriminate; now intros [= <-].
Qed.

(** X7. Whatever is typed, the program that [exec] starts is one of the
    index as [init] built it: its path is the path of a record that was in
    the index when [loop] was entered. *)
Theorem started_from_index (cfg : config) (fork_ok setsid_ok : bool)
    (psiz totsiz : Z) (g : globals) (keys : list Z) (p : string) :
  wf_globals g ->
  loop cfg fork_ok setsid_ok psiz totsiz g keys = Done (Ended (Started p)) ->
  exists r, r ∈ ev g /\ path r = p.
Proof.
  intros Hwf. unfold loop.
  destruct (loop_start cfg psiz totsiz g) as [s0| |] eqn:H0;
    cbn; try discriminate.
  apply loop_start_glob in H0.
  destruct (loop_keys cfg keys s0) as [[s nl]| |] eqn:Hk; cbn; try discriminate.
  destruct nl; [|discriminate].
  rewrite <- H0 in Hwf.
  destruct (loop_keys_frame _ _ _ _ _ Hwf Hk) as (_ & _ & Hin).
  unfold exec, deref, load.
  destruct (last (s_glob s)) as [m|]; [|discriminate].
  destruct fork_ok; [|discriminate]. destruct setsid_ok; [|discriminate].
  destruct (ev (s_glob s) !! m) as [t|] eqn:Ht; cbn; [|discriminate].
  intros [= <-]. exists t. split; [|reflexivity].
  rewrite <- H0. apply Hin. apply list_elem_of_lookup. eauto.
Qed.

Lemma started_from_index_witness :
  exists r, r ∈ [exe "/bin" "foo" 100; exe "/bin" "ls" 50] /\ path r = "/bin/ls".
Proof.
  apply (started_from_index cfg_default true true 1 150
           {| ev := [exe "/bin" "foo" 100; exe "/bin" "ls" 50]; last := None |}
           [108; 10] "/bin/ls").
  - wf_globals_tac.
  - vm_compute. reflexivity.
Defined.

(** X8. Enter as the first key starts nothing: [last] is still null and
    [exec] returns at once, although in the short and the long mode the
    screen then shows the line [exec] with the path of the first record. *)
Theorem enter_first_starts_nothing (cfg : config) (fork_ok setsid_ok : bool)
    (psiz totsiz : Z) (g : globals) (r : exe_t) (keys : list Z) :
  last g = None ->
  ev g !! 0%nat = Some r ->
  loop cfg fork_ok setsid_ok psiz totsiz g (10 :: keys) = Done (Ended NoSelection) /\
  (mode cfg <> MODELINE ->
   exists s0,
     loop_start cfg psiz totsiz g = Done s0 /\
     LExec (summary_row cfg) (path r) (bytesfmt (siz r)) (Z.of_nat (evsiz g))
       ∈ s_out s0).
Proof.
  intros Hl Hr. unfold loop, loop_start, load. rewrite Hr.
  split.
  - destruct (mode cfg); cbn [mbind outcome_bind loop_keys];
      change (chtype 10 =? 10) with true;
      cbn [mbind outcome_bind s_glob]; unfold exec; now rewrite Hl.
  - intros Hm. destruct (mode cfg); [|contradiction|];
      (eexists; split; [reflexivity|]; cbn [s_out];
       destruct (Sflag cfg); cbn;
       repeat (first [apply list_elem_of_here | apply list_elem_of_further])).
Qed.

Lemma enter_first_starts_nothing_witness :
  loop cfg_default true true 1 100
    {| ev := [exe "/bin" "foo" 100]; last := None |} [10]
  = Done (Ended NoSelection).
Proof.
  refine (proj1 (enter_first_starts_nothing cfg_default true true 1 100
                   {| ev := [exe "/bin" "foo" 100]; last := None |}
                   (exe "/bin" "foo" 100) [] _ _)); reflexivity.
Defined.

(** ** Option parsing *)

Section OptionProps.

Variable isspace : ascii -> bool.
Variable rand : nat -> nat.

Lemma parse_nprompt_range optarg val :
  parse_nprompt isspace optarg = Done val -> 1 <= val <= INT_MAX.
Proof.
  unfold parse_nprompt.
  destruct (strtoull isspace optarg) as [[v endp] erange].
  destruct erange; [discriminate|].
  destruct (skip_spaces isspace endp); [|discriminate].
  destruct (v <? 1) eqn:E1; [discriminate|].
  destruct (INT_MAX <? v) eqn:E2; [discriminate|].
  cbn. intros [= <-]. apply Z.ltb_ge in E1, E2. lia.
Qed.

Lemma option_step_cap n optarg o o' :
  option_step isspace rand n optarg o = Done o' ->
  1 <= o_nprompt o <= INT_MAX ->
  1 <= o_nprompt o' <= INT_MAX.
Proof.
  unfold option_step.
  repeat (destruct (byte_of n =? _); [intros [= <-]; auto|]).
  destruct (byte_of n =? 110); [|discriminate].
  destruct (parse_nprompt isspace optarg) as [val| |] eqn:E;
    cbn; try discriminate.
  intros [= <-] _. cbn. now apply (parse_nprompt_range optarg).
Qed.

Lemma parse_options_cap (opts : list (ascii * string)) (o : options) :
  parse_options isspace rand opts options_init = Done o ->
  wf_config (config_of o).
Proof.
  assert (H0 : 1 <= o_nprompt options_init <= INT_MAX)
    by (unfold INT_MAX; cbn; unfold DEFAULTNPROMPT; lia).
  revert H0. generalize options_init as o0.
  induction opts as [|[n optarg] opts IH]; intros o0 H0 Hrun.
  - injection Hrun as <-. exact H0.
  - cbn [parse_options] in Hrun.
    destruct (option_step isspace rand n optarg o0) as [o1| |] eqn:E;
      cbn in Hrun; try discriminate.
    apply (IH o1); [|assumption]. now apply (option_step_cap n optarg o0).
Qed.

(** X9. The display cap that the options leave is always between 1 and
    [INT_MAX]: the default is, and [-n] is fatal for any other value. *)
Theorem options_keep_cap_in_range (opts : list (ascii * string)) (o : options) :
  parse_options isspace rand opts options_init = Done o ->
  wf_config (config_of o).
Proof. apply parse_options_cap. Qed.

Lemma byte_of_digit d : 0 <= d <= 9 -> byte_of (digit d) = 48 + d.
Proof.
  intros H. unfold byte_of, digit.
  rewrite N_ascii_embedding by lia. lia.
Qed.

Lemma is_digit_digit d : 0 <= d <= 9 -> is_digit (digit d) = true.
Proof.
  intros H. unfold is_digit. rewrite byte_of_digit by assumption.
  apply andb_true_iff. split; apply Z.leb_le; lia.
Qed.

Lemma digits_value_digit a d s :
  0 <= d <= 9 ->
  digits_value a (String (digit d) s) = digits_value (a * 10 + d) s.
Proof.
  intros H. cbn [digits_value].
  rewrite is_digit_digit, byte_of_digit by assumption. f_equal. lia.
Qed.

(** Reading back what [utoa] prints gives the number printed. *)
Lemma digits_value_utoa k : forall z acc,
  0 <= z < 10 ^ Z.of_nat k ->
  digits_value 0 (utoa k z acc) = digits_value z acc.
Proof.
  induction k as [|k IH]; intros z acc Hz.
  - cbn in *. replace z with 0 by lia. reflexivity.
  - cbn [utoa].
    pose proof (Z.mod_pos_bound z 10 ltac:(lia)) as Hm.
    pose proof (Z.div_mod z 10 ltac:(lia)) as Hd.
    destruct (z / 10 =? 0) eqn:E.
    + apply Z.eqb_eq in E. rewrite digits_value_digit by lia. f_equal. lia.
    + rewrite IH.
      * rewrite digits_value_digit by lia. f_equal. lia.
      * rewrite Nat2Z.inj_succ, Z.pow_succ_r in Hz by lia.
        split; [apply Z.div_pos; lia|].
        apply Z.div_lt_upper_bound; lia.
Qed.

Lemma utoa_starts_with_digit k : forall z acc,
  0 <= z ->
  (0 < k)%nat \/ starts_with_digit acc = true ->
  starts_with_digit (utoa k z acc) = true.
Proof.
  induction k as [|k IH]; intros z acc Hz Hk.
  - destruct Hk as [Hk|Hk]; [lia | exact Hk].
  - cbn [utoa].
    pose proof (Z.mod_pos_bound z 10 ltac:(lia)) as Hm.
    destruct (z / 10 =? 0).
    + cbn. apply is_digit_digit. lia.
    + apply IH; [apply Z.div_pos; lia|]. right. cbn. apply is_digit_digit. lia.
Qed.

Hypothesis isspace_digit : forall c, is_digit c = true -> isspace c = false.

Lemma skip_spaces_digit s :
  starts_with_digit s = true -> skip_spaces isspace s = s.
Proof.
  destruct s as [|c s]; [reflexivity|]. cbn. intros H.
  now rewrite isspace_digit.
Qed.

Lemma strtoull_utoa z :
  0 <= z < 10 ^ 20 ->
  strtoull isspace (utoa 20 z "") =
    if ULLONG_MAX <? z then (ULLONG_MAX, EmptyString, true)
    else (z, EmptyString, false).
Proof.
  intros Hz. unfold strtoull.
  pose proof (utoa_starts_with_digit 20 z "" ltac:(lia) ltac:(left; lia)) as Hd.
  rewrite skip_spaces_digit by assumption.
  destruct (utoa 20 z "") as [|c s] eqn:E; [discriminate Hd|].
  cbn [starts_with_digit] in Hd.
  assert (Hc : 48 <= byte_of c <= 57).
  { unfold is_digit in Hd. apply andb_true_iff in Hd as [H1 H2].
    apply Z.leb_le in H1, H2. lia. }
  replace (byte_of c =? 45) with false by (symmetry; apply Z.eqb_neq; lia).
  replace (byte_of c =? 43) with false by (symmetry; apply Z.eqb_neq; lia).
  cbn [starts_with_digit]. rewrite Hd, <- E.
  rewrite digits_value_utoa by (cbn; lia). cbn [digits_value].
  reflexivity.
Qed.

(** X10. [-n] with the decimal digits of a number [k] sets the display cap
    to [k] when [k] is between 1 and [INT_MAX], and is fatal for 0 and for
    every larger number. *)
Theorem nprompt_of_decimal (k : Z) :
  0 <= k < 10 ^ 20 ->
  parse_nprompt isspace (utoa 20 k "") =
    if (1 <=? k) && (k <=? INT_MAX) then Done k
    else Fatal (failed_convert (utoa 20 k "")).
Proof.
  intros Hk. unfold parse_nprompt. rewrite strtoull_utoa by assumption.
  destruct (ULLONG_MAX <? k) eqn:E.
  - apply Z.ltb_lt in E. unfold ULLONG_MAX, INT_MAX in *.
    replace (k <=? 2147483647) with false by (symmetry; apply Z.leb_gt; lia).
    now rewrite andb_false_r.
  - cbn [skip_spaces].
    destruct (1 <=? k) eqn:E1, (k <=? INT_MAX) eqn:E2; cbn [andb].
    + apply Z.leb_le in E1, E2.
      replace (k <? 1) with false by (symmetry; apply Z.ltb_ge; lia).
      replace (INT_MAX <? k) with false by (symmetry; apply Z.ltb_ge; lia).
      reflexivity.
    + apply Z.leb_gt in E2.
      replace (INT_MAX <? k) with true by (symmetry; apply Z.ltb_lt; lia).
      now rewrite orb_true_r.
    + apply Z.leb_gt in E1.
      replace (k <? 1) with true by (symmetry; apply Z.ltb_lt; lia).
      reflexivity.
    + apply Z.leb_gt in E1.
      replace (k <? 1) with true by (symmetry; apply Z.ltb_lt; lia).
      reflexivity.
Qed.

End OptionProps.

(** [isspace] in the "C" locale. *)
Definition isspace_C (c : ascii) : bool :=
  (byte_of c =? 32) || ((9 <=? byte_of c) && (byte_of c <=? 13)).

Lemma isspace_C_digit c : is_digit c = true -> isspace_C c = false.
Proof.
  unfold is_digit, isspace_C. intros H.
  apply andb_true_iff in H as [H1 H2]. apply Z.leb_le in H1, H2.
  apply orb_false_iff. split; [apply Z.eqb_neq; lia|].
  apply andb_false_iff. right. apply Z.leb_gt. lia.
Qed.

Lemma options_keep_cap_in_range_witness :
  wf_config {| mode := MODELONG; nprompt := 5; Sflag := true |}.
Proof.
  apply (options_keep_cap_in_range isspace_C (λ _, 0%nat)
           [("S"%char, ""); ("n"%char, " 5 "); ("L"%char, "")]
           {| o_mode := MODELONG; o_nprompt := 5; o_Sflag := 1; o_Pflag := 0;
              o_rands := 0 |}).
  vm_compute. reflexivity.
Defined.

Lemma nprompt_of_decimal_witness :
  parse_nprompt isspace_C "0" = Fatal (failed_convert "0") /\
  parse_nprompt isspace_C "30" = Done 30.
Proof.
  split.
  - refine (nprompt_of_decimal isspace_C isspace_C_digit 0 _). lia.
  - refine (nprompt_of_decimal isspace_C isspace_C_digit 30 _). lia.
Defined.

Section OptionFlags.

Variable isspace : ascii -> bool.
Variable rand : nat -> nat.

Hypothesis isspace_minus : isspace "-" = false.

(** X11. A minus sign does not make [-n] fail by itself: the digits are
    read as an unsigned number and negated modulo 2^64, so that [-n] with
    a minus sign and the digits of [2^64 - v] sets the display cap to [v],
    for every [v] between 1 and [INT_MAX]. *)
Theorem nprompt_of_negative (v : Z) :
  1 <= v <= INT_MAX ->
  parse_nprompt isspace (String "-" (utoa 20 (2 ^ 64 - v) "")) = Done v.
Proof.
  intros Hv. unfold INT_MAX in Hv.
  assert (Hz : 0 <= 2 ^ 64 - v < 10 ^ Z.of_nat 20) by (cbn; lia).
  unfold parse_nprompt, strtoull.
  cbn [skip_spaces]. rewrite isspace_minus.
  change (byte_of "-" =? 45) with true. cbv iota.
  rewrite (utoa_starts_with_digit 20 (2 ^ 64 - v) "") by (lia || (left; lia)).
  rewrite digits_value_utoa by assumption. cbn [digits_value].
  replace (ULLONG_MAX <? 2 ^ 64 - v) with false
    by (symmetry; apply Z.ltb_ge; unfold ULLONG_MAX; lia).
  assert (Hs : size_t (- (2 ^ 64 - v)) = v).
  { unfold size_t, SIZE_WIDTH.
    replace (- (2 ^ 64 - v)) with (v + (-1) * 2 ^ 64) by lia.
    rewrite Z.mod_add by lia. apply Z.mod_small. lia. }
  rewrite Hs. cbn [skip_spaces].
  replace (v <? 1) with false by (symmetry; apply Z.ltb_ge; lia).
  replace (INT_MAX <? v) with false
    by (symmetry; apply Z.ltb_ge; unfold INT_MAX; lia).
  reflexivity.
Qed.

Lemma option_step_flags n optarg o o' :
  option_step isspace rand n optarg o = Done o' ->
  o_Sflag o' = (if byte_of n =? 83 then u_char_incr (o_Sflag o) else o_Sflag o) /\
  o_Pflag o' = (if byte_of n =? 80 then u_char_incr (o_Pflag o) else o_Pflag o).
Proof.
  unfold option_step.
  destruct (byte_of n =? 83) eqn:ES.
  { apply Z.eqb_eq in ES. rewrite ES. intros [= <-]. now cbn. }
  destruct (byte_of n =? 80) eqn:EP; [intros [= <-]; now cbn|].
  destruct (byte_of n =? 115); [intros [= <-]; now cbn|].
  destruct (byte_of n =? 108); [intros [= <-]; now cbn|].
  destruct (byte_of n =? 76); [intros [= <-]; now cbn|].
  destruct (byte_of n =? 114); [intros [= <-]; now cbn|].
  destruct (byte_of n =? 110); [|discriminate].
  destruct (parse_nprompt isspace optarg); cbn; try discriminate.
  intros [= <-]. now cbn.
Qed.

Lemma count_option_cons b n optarg opts :
  count_option b ((n, optarg) :: opts) =
    ((if (byte_of n =? b)%Z then 1 else 0) + count_option b opts)%nat.
Proof.
  unfold count_option. rewrite filter_cons. cbn [fst].
  destruct (decide (byte_of n = b)) as [->|Hne].
  - now rewrite Z.eqb_refl.
  - apply Z.eqb_neq in Hne. now rewrite Hne.
Qed.

Lemma parse_options_flags opts : forall o0 o,
  parse_options isspace rand opts o0 = Done o ->
  o_Sflag o mod 256 = (o_Sflag o0 + Z.of_nat (count_option 83 opts)) mod 256 /\
  o_Pflag o mod 256 = (o_Pflag o0 + Z.of_nat (count_option 80 opts)) mod 256.
Proof.
  induction opts as [|[n optarg] opts IH]; intros o0 o Hrun.
  - injection Hrun as <-. unfold count_option. cbn. now rewrite !Z.add_0_r.
  - cbn [parse_options] in Hrun.
    destruct (option_step isspace rand n optarg o0) as [o1| |] eqn:E;
      cbn in Hrun; try discriminate.
    destruct (option_step_flags _ _ _ _ E) as [HS HP].
    destruct (IH o1 o Hrun) as [IS IP].
    rewrite IS, IP, HS, HP, !count_option_cons. unfold u_char_incr.
    split.
    + destruct (byte_of n =? 83); [|f_equal; lia].
      rewrite Zplus_mod_idemp_l. f_equal. lia.
    + destruct (byte_of n =? 80); [|f_equal; lia].
      rewrite Zplus_mod_idemp_l. f_equal. lia.
Qed.

Lemma parse_options_flags_range opts : forall o0 o,
  parse_options isspace rand opts o0 = Done o ->
  0 <= o_Sflag o0 < 256 -> 0 <= o_Pflag o0 < 256 ->
  0 <= o_Sflag o < 256 /\ 0 <= o_Pflag o < 256.
Proof.
  induction opts as [|[n optarg] opts IH]; intros o0 o Hrun HS0 HP0.
  - now injection Hrun as <-.
  - cbn [parse_options] in Hrun.
    destruct (option_step isspace rand n optarg o0) as [o1| |] eqn:E;
      cbn in Hrun; try discriminate.
    destruct (option_step_flags _ _ _ _ E) as [HS HP].
    apply (IH o1 o Hrun); [rewrite HS | rewrite HP]; unfold u_char_incr.
    + destruct (byte_of n =? 83); [apply Z.mod_pos_bound; lia | assumption].
    + destruct (byte_of n =? 80); [apply Z.mod_pos_bound; lia | assumption].
Qed.

(** X12. [Sflag] and [Pflag] are counters of one byte: after the options,
    each holds the number of times its option was given modulo 256, so
    that [-S] or [-P] given a multiple of 256 times is as if not given. *)
Theorem flags_count_modulo_256 (opts : list (ascii * string)) (o : options) :
  parse_options isspace rand opts options_init = Done o ->
  o_Sflag o = Z.of_nat (count_option 83 opts) mod 256 /\
  o_Pflag o = Z.of_nat (count_option 80 opts) mod 256 /\
  Sflag (config_of o) = negb (Z.of_nat (count_option 83 opts) mod 256 =? 0).
Proof.
  intros Hrun.
  destruct (parse_options_flags _ _ _ Hrun) as [HS HP].
  destruct (parse_options_flags_range _ _ _ Hrun) as [RS RP];
    [cbn; lia | cbn; lia |].
  rewrite Z.mod_small in HS, HP by assumption. cbn in HS, HP.
  split; [assumption|]. split; [assumption|].
  unfold config_of. cbn [Sflag]. now rewrite HS.
Qed.

End OptionFlags.

Lemma nprompt_of_negative_witness :
  parse_nprompt isspace_C "-18446744073709551615" = Done 1.
Proof.
  refine (nprompt_of_negative isspace_C _ 1 _).
  - reflexivity.
  - unfold INT_MAX. lia.
Defined.

Lemma flags_count_modulo_256_witness :
  Sflag (config_of {| o_mode := MODESHORT; o_nprompt := 30; o_Sflag := 0;
                      o_Pflag := 1; o_rands := 0 |}) = false.
Proof.
  refine (eq_trans
            (proj2 (proj2 (flags_count_modulo_256 isspace_C (λ _, 0%nat)
                             (("P"%char, "") :: replicate 256 ("S"%char, ""))
                             {| o_mode := MODESHORT; o_nprompt := 30; o_Sflag := 0;
                                o_Pflag := 1; o_rands := 0 |} _))) _).
  - vm_compute. reflexivity.
  - vm_compute. reflexivity.
Defined.

(** ** The search-path list *)

Lemma copy_args_spec av : forall n (pv : pv_t),
  (n + length av <= length pv)%nat ->
  exists pv' : pv_t,
    copy_args av n pv = Done pv' /\
    length pv' = length pv /\
    take (n + length av) pv' = (take n pv ++ (Some <$> av))%list /\
    drop (n + length av) pv' = drop (n + length av) pv.
Proof.
  induction av as [|a av IH]; intros n pv Hlen.
  - exists pv. cbn. rewrite Nat.add_0_r, app_nil_r. auto.
  - cbn [copy_args length] in *.
    destruct (decide (n < length pv)%nat) as [Hn|]; [|lia].
    destruct (IH (S n) (<[n := Some a]> pv)) as (pv' & Hrun & Hl & Ht & Hd).
    { rewrite length_insert. lia. }
    exists pv'. split; [assumption|].
    rewrite length_insert in Hl. split; [assumption|].
    replace (n + S (length av))%nat with (S n + length av)%nat by lia.
    split.
    + rewrite Ht, take_insert_snoc by assumption.
      now rewrite <- app_assoc.
    + rewrite Hd. apply drop_insert_lt. lia.
Qed.

Lemma size_t_argc (av : list string) :
  Z.of_nat (length av) <= INT_MAX ->
  size_t (Z.of_nat (length av)) = Z.of_nat (length av).
Proof.
  intros H. apply size_t_small. unfold INT_MAX, SIZE_WIDTH in *.
  change (2 ^ 64) with 18446744073709551616. lia.
Qed.

(** The paths of the command line alone. *)
Lemma resolve_plain av (pv : pv_t) :
  length pv = Z.to_nat MAXPATHS ->
  Z.of_nat (length av) <= MAXPATHS ->
  exists pv' : pv_t,
    ((if MAXPATHS <? Z.of_nat (length av) then Fatal "Too many paths!"
      else pv' ← copy_args av 0 pv; Done (pv', Z.of_nat (length av)))
     = Done (pv', Z.of_nat (length av))) /\
    search_paths pv' (Z.of_nat (length av)) = Some <$> av /\
    length pv' = Z.to_nat MAXPATHS.
Proof.
  intros Hlen Hav.
  destruct (copy_args_spec av 0 pv) as (pv' & Hrun & Hl & Ht & _); [lia|].
  exists pv'. replace (MAXPATHS <? Z.of_nat (length av)) with false
    by (symmetry; apply Z.ltb_ge; lia).
  rewrite Hrun. split; [reflexivity|]. split; [|congruence].
  unfold search_paths. rewrite Nat2Z.id. exact Ht.
Qed.

Lemma resolve_args (av : list string) (PATH : option string) :
  av <> [] ->
  Z.of_nat (length av) <= INT_MAX ->
  if MAXPATHS <? Z.of_nat (length av)
  then resolve av false PATH = Some (Fatal "Too many paths!")
  else exists pv : pv_t,
         resolve av false PATH = Some (Done (pv, Z.of_nat (length av))) /\
         search_paths pv (Z.of_nat (length av)) = Some <$> av /\
         length pv = Z.to_nat MAXPATHS.
Proof.
  intros Hne Hint. unfold resolve. rewrite size_t_argc by assumption.
  replace (Z.of_nat (length av) <=? 0) with false
    by (symmetry; apply Z.leb_gt; destruct av; [contradiction | cbn; lia]).
  cbn [orb mbind option_bind outcome_bind].
  destruct (MAXPATHS <? Z.of_nat (length av)) eqn:E; [reflexivity|].
  apply Z.ltb_ge in E.
  destruct (resolve_plain av pv_init) as (pv' & Hrun & Hsp & Hl);
    [reflexivity | assumption |].
  replace (MAXPATHS <? Z.of_nat (length av)) with false in Hrun
    by (symmetry; apply Z.ltb_ge; lia).
  exists pv'. now rewrite Hrun.
Qed.

(** X13. Paths on the command line and no [-P]: the search paths are the
    arguments, in order, and [PATH] is not read, whether it is set or not;
    more than 512 arguments are the fatal error [Too many paths!]. *)
Theorem resolve_arguments_only (av : list string) (PATH : option string) :
  av <> [] ->
  Z.of_nat (length av) <= INT_MAX ->
  if MAXPATHS <? Z.of_nat (length av)
  then resolve av false PATH = Some (Fatal "Too many paths!")
  else exists pv,
         resolve av false PATH = Some (Done (pv, Z.of_nat (length av))) /\
         search_paths pv (Z.of_nat (length av)) = Some <$> av.
Proof.
  intros Hne Hint. pose proof (resolve_args av PATH Hne Hint) as H.
  destruct (MAXPATHS <? Z.of_nat (length av)); [exact H|].
  destruct H as (pv & ? & ? & _). now exists pv.
Qed.

Lemma resolve_arguments_only_witness :
  exists pv,
    resolve ["/opt/bin"; "/bin"] false None = Some (Done (pv, 2)) /\
    search_paths pv 2 = [Some "/opt/bin"; Some "/bin"].
Proof.
  apply (resolve_arguments_only ["/opt/bin"; "/bin"] None).
  - discriminate.
  - unfold INT_MAX. cbn. lia.
Defined.

Lemma resolve_args_PATH (av : list string) (Pflag : bool) (p : string) :
  Pflag = true \/ av = [] ->
  Z.of_nat (length av) < MAXPATHS ->
  exists (pv : pv_t) stored,
    stored = take (Z.to_nat MAXPATHS - length av) (tokens_of p) /\
    resolve av Pflag (Some p) =
      Some (Done (pv, Z.of_nat (length av + length stored))) /\
    search_paths pv (Z.of_nat (length av + length stored)) =
      Some <$> (av ++ stored)%list /\
    (length av + length stored <= length pv)%nat.
Proof.
  intros HP Hav. unfold resolve.
  rewrite size_t_argc by (unfold MAXPATHS, INT_MAX in *; lia).
  replace ((Z.of_nat (length av) <=? 0) || Pflag) with true.
  2:{ symmetry. destruct HP as [->| ->]; [apply orb_true_r | reflexivity]. }
  destruct (parsepath_spec p pv_init (Z.of_nat (length av)))
    as (pv1 & Hrun & Hlen1 & Hsp); [lia | reflexivity |].
  replace (Z.to_nat (MAXPATHS - Z.of_nat (length av)))
    with (Z.to_nat MAXPATHS - length av)%nat in * by lia.
  set (stored := take (Z.to_nat MAXPATHS - length av) (tokens_of p)) in *.
  assert (Hst : (length stored <= Z.to_nat MAXPATHS - length av)%nat).
  { unfold stored. rewrite length_take. lia. }
  rewrite Hrun. cbn [mbind option_bind outcome_bind].
  replace (MAXPATHS <? Z.of_nat (length av) + Z.of_nat (length stored))
    with false by (symmetry; apply Z.ltb_ge; lia).
  destruct (copy_args_spec av 0 pv1) as (pv' & Hcp & Hlen' & Ht & Hd); [lia|].
  rewrite Hcp. cbn [mbind outcome_bind].
  exists pv', stored. split; [reflexivity|].
  rewrite Nat2Z.inj_add. split; [reflexivity|].
  split; [|rewrite Hlen', Hlen1; lia].
  unfold search_paths in *. rewrite <- Nat2Z.inj_add, Nat2Z.id in *.
  rewrite <- take_take_drop. cbn [take Nat.add] in Ht, Hd.
  rewrite Ht, Hd, fmap_app. f_equal.
  rewrite <- take_take_drop in Hsp.
  apply app_inj_1 in Hsp as [_ Hsp]; [exact Hsp|].
  rewrite !length_take, Hlen1, Nat2Z.id. unfold pv_init.
  now rewrite length_replicate.
Qed.

(** X14. With [-P], or with no path on the command line, the search paths
    are the arguments, in order, followed by the entries of [PATH] that
    are not empty, as many as fit into the 512 slots. *)
Theorem resolve_arguments_then_PATH (av : list string) (Pflag : bool)
    (p : string) :
  Pflag = true \/ av = [] ->
  Z.of_nat (length av) < MAXPATHS ->
  exists pv stored,
    stored = take (Z.to_nat MAXPATHS - length av) (tokens_of p) /\
    resolve av Pflag (Some p) =
      Some (Done (pv, Z.of_nat (length av + length stored))) /\
    search_paths pv (Z.of_nat (length av + length stored)) =
      Some <$> (av ++ stored)%list.
Proof.
  intros HP Hav.
  destruct (resolve_args_PATH av Pflag p HP Hav) as (pv & st & ? & ? & ? & _).
  now exists pv, st.
Qed.

Lemma resolve_arguments_then_PATH_witness :
  exists pv,
    resolve ["/opt/bin"] true (Some "/bin::/usr/bin") = Some (Done (pv, 3)) /\
    search_paths pv 3 = [Some "/opt/bin"; Some "/bin"; Some "/usr/bin"].
Proof.
  destruct (resolve_arguments_then_PATH ["/opt/bin"] true "/bin::/usr/bin")
    as (pv & stored & -> & Hrun & Hsp).
  - now left.
  - unfold MAXPATHS. cbn. lia.
  - exists pv. split; [exact Hrun | exact Hsp].
Defined.

(** X15. With 512 paths or more on the command line, [-P] and a [PATH]
    that has an entry, [parsepath] stores that entry past the end of
    [pv]: the write is out of bounds, and it comes before the test that
    would report too many paths. *)
Theorem resolve_overflows_pv (av : list string) (p : string) :
  MAXPATHS <= Z.of_nat (length av) <= INT_MAX ->
  tokens_of p <> [] ->
  resolve av true (Some p) = Some Fault.
Proof.
  intros Hav Htok. unfold resolve.
  rewrite size_t_argc by lia. rewrite orb_true_r.
  unfold parsepath.
  pose proof (strtok_tokens p) as Ht.
  destruct (strtok p ":") as [[t|] kept]; cbn [fst snd pending] in Ht.
  - cbn [parsepath_loop].
    destruct (decide _) as [Hlt|]; [|reflexivity].
    unfold pv_init in Hlt. rewrite length_replicate in Hlt. lia.
  - now rewrite <- Ht in Htok.
Qed.

Lemma resolve_overflows_pv_witness :
  resolve (replicate 512 "/d") true (Some "/bin") = Some Fault.
Proof.
  apply (resolve_overflows_pv (replicate 512 "/d") "/bin").
  - rewrite length_replicate. unfold MAXPATHS, INT_MAX. lia.
  - discriminate.
Defined.

(** ** Index construction, continued *)

Lemma total_size_snoc l r : total_size (l ++ [r]) = total_size l + siz r.
Proof.
  unfold total_size. induction l as [|x l IH]; cbn; [lia|].
  rewrite IH. lia.
Qed.

Lemma size_t_add_l a b : size_t (size_t a + b) = size_t (a + b).
Proof. unfold size_t. apply Zplus_mod_idemp_l. Qed.

Lemma size_t_add_r a b : size_t (a + size_t b) = size_t (a + b).
Proof. unfold size_t. apply Zplus_mod_idemp_r. Qed.

Section InitMore.

Variable opendir : string -> option (list string).
Variable access_X_OK : string -> bool.
Variable stat : string -> option Z.
Variable realloc : Z -> bool.

(** What [init] keeps true of its globals while the records stay fewer
    than [bound]: [totsiz] is the sum of the sizes modulo 2^64, and the
    capacity is the least multiple of 1024 that holds the records. *)
Definition index_ok (bound : Z) (ix : index) : Prop :=
  ix_totsiz ix = size_t (total_size (ix_ev ix)) /\
  (Z.of_nat (length (ix_ev ix)) < bound ->
   ix_evcap ix mod 1024 = 0 /\
   Z.of_nat (length (ix_ev ix)) <= ix_evcap ix < Z.of_nat (length (ix_ev ix)) + 1024).

Lemma scan_dir_ok bound dir_path entries : forall ix ix',
  bound <= 2 ^ 64 - 1024 ->
  scan_dir access_X_OK stat realloc dir_path entries ix = Done ix' ->
  index_ok bound ix -> index_ok bound ix'.
Proof.
  intros ix ix' Hb. revert ix.
  induction entries as [|e entries IH]; intros ix Hrun Hok.
  - now injection Hrun as <-.
  - cbn [scan_dir] in Hrun.
    destruct ((strcmp e "." =? 0) || (strcmp e ".." =? 0)); [now apply (IH ix)|].
    destruct (access_X_OK _); cbn [negb] in Hrun; [|now apply (IH ix)].
    destruct (stat _) as [sz|]; [|now apply (IH ix)].
    destruct Hok as [Htot Hcap].
    assert (Hsz : Z.of_nat (length (ix_ev ix)) < bound ->
                  ix_evsiz ix = Z.of_nat (length (ix_ev ix))).
    { intros Hl. unfold ix_evsiz. apply size_t_small. unfold SIZE_WIDTH. lia. }
    destruct (ix_evsiz ix =? ix_evcap ix) eqn:E.
    + destruct (realloc _); cbn in Hrun; [|discriminate].
      apply IH in Hrun; [assumption|].
      split; cbn [ix_ev ix_evcap ix_totsiz].
      * rewrite Htot, total_size_snoc. cbn [siz].
        now rewrite size_t_add_l, size_t_add_r.
      * rewrite length_app. cbn [length]. intros Hl.
        destruct Hcap as (Hm & Hle & Hlt); [lia|].
        apply Z.eqb_eq in E. rewrite Hsz in E by lia.
        rewrite size_t_small by (unfold SIZE_WIDTH; lia).
        split; [|lia].
        rewrite <- Zplus_mod_idemp_l, Hm. reflexivity.
    + cbn in Hrun. apply IH in Hrun; [assumption|].
      split; cbn [ix_ev ix_evcap ix_totsiz].
      * rewrite Htot, total_size_snoc. cbn [siz].
        now rewrite size_t_add_l, size_t_add_r.
      * rewrite length_app. cbn [length]. intros Hl.
        destruct Hcap as (Hm & Hle & Hlt); [lia|].
        apply Z.eqb_neq in E. rewrite Hsz in E by lia.
        split; [assumption|lia].
Qed.

Lemma scan_paths_ok bound (pv : pv_t) k : forall n ix ix',
  bound <= 2 ^ 64 - 1024 ->
  scan_paths opendir access_X_OK stat realloc pv k n ix = Done ix' ->
  index_ok bound ix -> index_ok bound ix'.
Proof.
  induction k as [|k IH]; intros n ix ix' Hb Hrun Hok.
  - now injection Hrun as <-.
  - cbn [scan_paths] in Hrun.
    destruct (pv !! n) as [[p|]|]; try discriminate.
    destruct (opendir p) as [entries|]; [|now apply (IH (S n) ix)].
    destruct (scan_dir _ _ _ p entries ix) as [ix1| |] eqn:Hs;
      cbn in Hrun; try discriminate.
    apply (IH (S n) ix1); [assumption | assumption|].
    now apply (scan_dir_ok bound p entries ix).
Qed.

Lemma init_ok bound (pv : pv_t) psiz ix :
  bound <= 2 ^ 64 - 1024 ->
  init opendir access_X_OK stat realloc pv psiz = Done ix ->
  index_ok bound ix.
Proof.
  unfold init. intros Hb Hrun.
  destruct (scan_paths _ _ _ _ pv (Z.to_nat psiz) 0 _) as [ix0| |] eqn:Hs;
    cbn in Hrun; try discriminate.
  destruct (ix_evsiz ix0 =? 0); [discriminate|]. injection Hrun as <-.
  apply (scan_paths_ok bound _ _ _ _ _ Hb Hs).
  split; [reflexivity|]. intros _. cbn [ix_ev ix_evcap length].
  split; [reflexivity | lia].
Qed.

(** X16. The total that the banner shows is the sum of the sizes of the
    records of the index, modulo 2^64. *)
Theorem totsiz_is_sum (pv : pv_t) (psiz : Z) (ix : index) :
  init opendir access_X_OK stat realloc pv psiz = Done ix ->
  ix_totsiz ix = size_t (total_size (ix_ev ix)).
Proof.
  intros Hrun. apply (init_ok 0 pv psiz ix); [lia | assumption].
Qed.

(** X17. The array always has room for the records stored in it: as long
    as there are fewer than 2^64 - 1024 records, the capacity [evcap] is a
    multiple of 1024, at least the number of records and less than 1024
    above it. *)
Theorem capacity_holds_records (pv : pv_t) (psiz : Z) (ix : index) :
  init opendir access_X_OK stat realloc pv psiz = Done ix ->
  Z.of_nat (length (ix_ev ix)) < 2 ^ 64 - 1024 ->
  ix_evcap ix mod 1024 = 0 /\
  Z.of_nat (length (ix_ev ix)) <= ix_evcap ix < Z.of_nat (length (ix_ev ix)) + 1024.
Proof.
  intros Hrun Hlen.
  now apply (init_ok (2 ^ 64 - 1024) pv psiz ix ltac:(lia) Hrun).
Qed.

End InitMore.

Lemma totsiz_is_sum_witness :
  exists ix,
    init one_dir (λ _, true) (λ _, Some 7) (λ _, true)
         (<[0%nat := Some "/bin"]> pv_init) 1 = Done ix /\
    ix_totsiz ix = 14 /\ ix_evcap ix = 1024.
Proof.
  destruct (init one_dir (λ _, true) (λ _, Some 7) (λ _, true)
              (<[0%nat := Some "/bin"]> pv_init) 1) as [ix| |] eqn:E.
  - exists ix. split; [reflexivity|].
    pose proof (totsiz_is_sum _ _ _ _ _ _ _ E) as Ht.
    vm_compute in E. injection E as <-. split; [exact Ht | reflexivity].
  - vm_compute in E. discriminate E.
  - vm_compute in E. discriminate E.
Defined.

Lemma capacity_holds_records_witness :
  exists ix,
    init one_dir (λ _, true) (λ _, Some 7) (λ _, true)
         (<[0%nat := Some "/bin"]> pv_init) 1 = Done ix /\
    Z.of_nat (length (ix_ev ix)) <= ix_evcap ix.
Proof.
  destruct (init one_dir (λ _, true) (λ _, Some 7) (λ _, true)
              (<[0%nat := Some "/bin"]> pv_init) 1) as [ix| |] eqn:E.
  - exists ix. split; [reflexivity|].
    refine (proj1 (proj2 (capacity_holds_records _ _ _ _ _ _ _ E _))).
    vm_compute in E. injection E as <-. vm_compute. reflexivity.
  - vm_compute in E. discriminate E.
  - vm_compute in E. discriminate E.
Defined.

Section InitOutcome.

Variable opendir : string -> option (list string).
Variable access_X_OK : string -> bool.
Variable stat : string -> option Z.
Variable realloc : Z -> bool.

(** A directory without a record leaves the index as it is, and [realloc]
    is not called. *)
Lemma scan_dir_none dir_path entries ix :
  omap (entry_record access_X_OK stat dir_path) entries = [] ->
  scan_dir access_X_OK stat realloc dir_path entries ix = Done ix.
Proof.
  induction entries as [|e entries IH]; [reflexivity|].
  cbn [omap list_omap scan_dir]. unfold entry_record at 1, snprintf_s.
  cbn [Nat.pred].
  destruct ((strcmp e "." =? 0) || (strcmp e ".." =? 0)); [exact IH|].
  destruct (access_X_OK _); cbn [negb]; [|exact IH].
  destruct (stat _); [discriminate | exact IH].
Qed.

(** When [realloc] fails, the first record of a directory is fatal if the
    array is full. *)
Lemma scan_dir_realloc_fails dir_path entries ix :
  (forall z, realloc z = false) ->
  ix_evsiz ix = ix_evcap ix ->
  omap (entry_record access_X_OK stat dir_path) entries <> [] ->
  scan_dir access_X_OK stat realloc dir_path entries ix = Fatal "".
Proof.
  intros Hre Hfull. induction entries as [|e entries IH]; [contradiction|].
  cbn [omap list_omap scan_dir]. unfold entry_record at 1, snprintf_s.
  cbn [Nat.pred].
  destruct ((strcmp e "." =? 0) || (strcmp e ".." =? 0)); [exact IH|].
  destruct (access_X_OK _); cbn [negb]; [|exact IH].
  destruct (stat _); [|exact IH].
  intros _. rewrite Hfull, Z.eqb_refl, Hre. reflexivity.
Qed.

(** When [realloc] succeeds, a directory is scanned to its end. *)
Lemma scan_dir_succeeds dir_path entries : forall ix,
  (forall z, realloc z = true) ->
  exists ix', scan_dir access_X_OK stat realloc dir_path entries ix = Done ix'.
Proof.
  induction entries as [|e entries IH]; intros ix Hre; [now exists ix|].
  cbn [scan_dir].
  destruct ((strcmp e "." =? 0) || (strcmp e ".." =? 0)); [now apply IH|].
  destruct (negb (access_X_OK _)); [now apply IH|].
  destruct (stat _); [|now apply IH].
  destruct (ix_evsiz ix =? ix_evcap ix); [rewrite Hre|]; cbn; now apply IH.
Qed.

(** The slots of [pv] from [n] on hold the directories [dirs]. *)
Definition slots_hold (pv : pv_t) (n : nat) (dirs : list string) : Prop :=
  take (length dirs) (drop n pv) = Some <$> dirs.

Lemma slots_hold_cons (pv : pv_t) n d dirs :
  slots_hold pv n (d :: dirs) ->
  pv !! n = Some (Some d) /\ slots_hold pv (S n) dirs.
Proof.
  unfold slots_hold. cbn [length fmap list_fmap]. intros H.
  destruct (pv !! n) as [x|] eqn:Hn.
  - rewrite (drop_S _ _ _ Hn) in H. cbn [take] in H.
    injection H as -> H. auto.
  - apply lookup_ge_None in Hn. rewrite drop_ge in H by assumption.
    discriminate H.
Qed.

Lemma scan_paths_none (pv : pv_t) dirs : forall n ix,
  slots_hold pv n dirs ->
  (forall d, d ∈ dirs -> records_of_dir opendir access_X_OK stat d = []) ->
  scan_paths opendir access_X_OK stat realloc pv (length dirs) n ix = Done ix.
Proof.
  induction dirs as [|d dirs IH]; intros n ix Hs Hnone; [reflexivity|].
  apply slots_hold_cons in Hs as [Hn Hs]. cbn [length scan_paths].
  rewrite Hn.
  pose proof (Hnone d ltac:(apply list_elem_of_here)) as Hd.
  unfold records_of_dir in Hd.
  assert (Hrest : forall d', d' ∈ dirs ->
                    records_of_dir opendir access_X_OK stat d' = [])
    by (intros d' Hd'; apply Hnone; now apply list_elem_of_further).
  destruct (opendir d) as [entries|]; [|now apply IH].
  rewrite (scan_dir_none d entries ix Hd). cbn. now apply IH.
Qed.

Lemma scan_paths_realloc_fails (pv : pv_t) dirs : forall n ix,
  (forall z, realloc z = false) ->
  ix_evsiz ix = ix_evcap ix ->
  slots_hold pv n dirs ->
  dirs ≫= records_of_dir opendir access_X_OK stat <> [] ->
  scan_paths opendir access_X_OK stat realloc pv (length dirs) n ix = Fatal "".
Proof.
  induction dirs as [|d dirs IH]; intros n ix Hre Hfull Hs Hne;
    [contradiction|].
  apply slots_hold_cons in Hs as [Hn Hs]. cbn [length scan_paths].
  rewrite Hn. rewrite bind_cons in Hne. unfold records_of_dir at 1 in Hne.
  destruct (opendir d) as [entries|]; [|now apply IH].
  destruct (omap (entry_record access_X_OK stat d) entries) as [|r rs] eqn:Ho.
  - rewrite (scan_dir_none d entries ix Ho). cbn. now apply IH.
  - rewrite (scan_dir_realloc_fails d entries ix Hre Hfull); [reflexivity|].
    now rewrite Ho.
Qed.

Lemma scan_paths_succeeds (pv : pv_t) dirs : forall n ix,
  (forall z, realloc z = true) ->
  slots_hold pv n dirs ->
  exists ix',
    scan_paths opendir access_X_OK stat realloc pv (length dirs) n ix = Done ix'.
Proof.
  induction dirs as [|d dirs IH]; intros n ix Hre Hs; [now exists ix|].
  apply slots_hold_cons in Hs as [Hn Hs]. cbn [length scan_paths].
  rewrite Hn. destruct (opendir d) as [entries|]; [|now apply IH].
  destruct (scan_dir_succeeds d entries ix Hre) as [ix1 ->]. cbn.
  now apply IH.
Qed.

Lemma search_paths_slots (pv : pv_t) psiz dirs :
  search_paths pv psiz = Some <$> dirs ->
  (Z.to_nat psiz <= length pv)%nat ->
  length dirs = Z.to_nat psiz /\ slots_hold pv 0 dirs.
Proof.
  unfold search_paths, slots_hold. intros H Hlen.
  assert (Hl : length dirs = Z.to_nat psiz).
  { apply (f_equal length) in H. rewrite length_take, length_fmap in H. lia. }
  split; [assumption|]. now rewrite drop_0, Hl.
Qed.

(** X18. When no search path yields a record (the directory cannot be
    opened, or none of its entries is executable and can be examined),
    [init] ends with the fatal error [Not found files in paths!]; a
    search path that is missing is skipped without an error of its own. *)
Theorem init_nothing_found (pv : pv_t) (psiz : Z) (dirs : list string) :
  search_paths pv psiz = Some <$> dirs ->
  (Z.to_nat psiz <= length pv)%nat ->
  (forall d, d ∈ dirs -> records_of_dir opendir access_X_OK stat d = []) ->
  init opendir access_X_OK stat realloc pv psiz = Fatal "Not found files in paths!".
Proof.
  intros Hsp Hlen Hnone.
  destruct (search_paths_slots pv psiz dirs Hsp Hlen) as [Hl Hs].
  unfold init. rewrite <- Hl.
  now rewrite (scan_paths_none pv dirs 0 _ Hs Hnone).
Qed.

(** X19. When [realloc] fails, [init] ends through [finish(0)] without a
    message as soon as there is a first record to store. *)
Theorem init_allocation_failure (pv : pv_t) (psiz : Z) (dirs : list string) :
  (forall z, realloc z = false) ->
  search_paths pv psiz = Some <$> dirs ->
  (Z.to_nat psiz <= length pv)%nat ->
  dirs ≫= records_of_dir opendir access_X_OK stat <> [] ->
  init opendir access_X_OK stat realloc pv psiz = Fatal "".
Proof.
  intros Hre Hsp Hlen Hne.
  destruct (search_paths_slots pv psiz dirs Hsp Hlen) as [Hl Hs].
  unfold init. rewrite <- Hl.
  now rewrite (scan_paths_realloc_fails pv dirs 0
                 {| ix_ev := []; ix_evcap := 0; ix_totsiz := 0 |}
                 Hre eq_refl Hs Hne).
Qed.

(** X20. When [realloc] succeeds and some entry of a search path is
    executable and can be examined, [init] returns, and the index holds
    the records of the search paths in their order, each directory in the
    order of [readdir]. *)
Theorem init_builds_index (pv : pv_t) (psiz : Z) (dirs : list string) :
  (forall z, realloc z = true) ->
  search_paths pv psiz = Some <$> dirs ->
  (Z.to_nat psiz <= length pv)%nat ->
  dirs ≫= records_of_dir opendir access_X_OK stat <> [] ->
  Z.of_nat (length (dirs ≫= records_of_dir opendir access_X_OK stat)) < 2 ^ 64 ->
  exists ix,
    init opendir access_X_OK stat realloc pv psiz = Done ix /\
    ix_ev ix = dirs ≫= records_of_dir opendir access_X_OK stat.
Proof.
  intros Hre Hsp Hlen Hne Hsz.
  destruct (search_paths_slots pv psiz dirs Hsp Hlen) as [Hl Hs].
  destruct (scan_paths_succeeds pv dirs 0
              {| ix_ev := []; ix_evcap := 0; ix_totsiz := 0 |} Hre Hs)
    as [ix Hrun].
  destruct (scan_paths_spec _ _ _ _ _ _ _ _ _ Hrun) as (dirs' & Ht & Hev).
  rewrite drop_0 in Ht. unfold search_paths in Hsp.
  rewrite Hl, Hsp in Ht. apply (inj (fmap Some)) in Ht. subst dirs'.
  cbn [ix_ev app] in Hev.
  exists ix. split; [|assumption].
  unfold init. rewrite <- Hl, Hrun. cbn [mbind outcome_bind].
  replace (ix_evsiz ix =? 0) with false; [reflexivity|].
  symmetry. apply Z.eqb_neq. unfold ix_evsiz.
  rewrite size_t_small by (rewrite Hev; unfold SIZE_WIDTH; lia).
  rewrite Hev. destruct (dirs ≫= _); [contradiction | cbn; lia].
Qed.

End InitOutcome.

Lemma init_nothing_found_witness :
  init one_dir (λ _, true) (λ _, Some 7) (λ _, true)
       (<[0%nat := Some "/nowhere"]> pv_init) 1
  = Fatal "Not found files in paths!".
Proof.
  apply (init_nothing_found one_dir (λ _, true) (λ _, Some 7) (λ _, true)
           (<[0%nat := Some "/nowhere"]> pv_init) 1 ["/nowhere"]).
  - reflexivity.
  - rewrite length_insert. vm_compute. lia.
  - intros d Hd. apply list_elem_of_singleton in Hd as ->. reflexivity.
Defined.

Lemma init_allocation_failure_witness :
  init one_dir (λ _, true) (λ _, Some 7) (λ _, false)
       (<[0%nat := Some "/bin"]> pv_init) 1 = Fatal "".
Proof.
  apply (init_allocation_failure one_dir (λ _, true) (λ _, Some 7) (λ _, false)
           (<[0%nat := Some "/bin"]> pv_init) 1 ["/bin"]).
  - reflexivity.
  - reflexivity.
  - rewrite length_insert. vm_compute. lia.
  - vm_compute. discriminate.
Defined.

Lemma init_builds_index_witness :
  exists ix,
    init one_dir (λ _, true) (λ _, Some 7) (λ _, true)
         (<[0%nat := Some "/bin"]> pv_init) 1 = Done ix /\
    length (ix_ev ix) = 2%nat.
Proof.
  destruct (init_builds_index one_dir (λ _, true) (λ _, Some 7) (λ _, true)
              (<[0%nat := Some "/bin"]> pv_init) 1 ["/bin"])
    as (ix & Hrun & Hev).
  - reflexivity.
  - reflexivity.
  - rewrite length_insert. vm_compute. lia.
  - vm_compute. discriminate.
  - vm_compute. reflexivity.
  - exists ix. split; [exact Hrun|]. rewrite Hev. vm_compute. reflexivity.
Defined.

(** ** From the command line to the interactive loop *)

Section StartupProps.

Variable isspace : ascii -> bool.
Variable rand : nat -> nat.
Variable opendir : string -> option (list string).
Variable access_X_OK : string -> bool.
Variable stat : string -> option Z.
Variable realloc : Z -> bool.

Lemma resolve_Done_cap av Pflag PATH (pv : pv_t) psiz :
  resolve av Pflag PATH = Some (Done (pv, psiz)) -> psiz <= MAXPATHS.
Proof.
  unfold resolve.
  destruct (if _ : bool then _ else _) as [[[pv1 psiz1]| |]|];
    cbn; try discriminate.
  destruct (MAXPATHS <? psiz1) eqn:E; [discriminate|].
  apply Z.ltb_ge in E.
  destruct (copy_args av 0 pv1); cbn; try discriminate.
  now intros [= _ <-].
Qed.

Lemma init_Done_nonempty (pv : pv_t) psiz ix :
  init opendir access_X_OK stat realloc pv psiz = Done ix -> ix_ev ix <> [].
Proof.
  unfold init.
  destruct (scan_paths _ _ _ _ _ _ _ _) as [ix0| |]; cbn; try discriminate.
  destruct (ix_evsiz ix0 =? 0) eqn:E; [discriminate|].
  intros [= <-] Hnil. unfold ix_evsiz in E. now rewrite Hnil in E.
Qed.

(** X21. What [loop] can rely on: whenever [main] gets as far as the
    interactive loop, the display cap is between 1 and [INT_MAX], there
    are at most 512 search paths, the index is not empty, and nothing is
    selected yet. *)
Theorem startup_invariants (argc : Z) (opts : list (ascii * string))
    (av : list string) (PATH : option string)
    (cfg : config) (psiz : Z) (ix : index) (g : globals) :
  startup isspace rand opendir access_X_OK stat realloc argc opts av PATH
    = Some (Done (cfg, psiz, ix, g)) ->
  wf_config cfg /\
  psiz <= MAXPATHS /\
  ev g = ix_ev ix /\ ev g <> [] /\
  last g = None.
Proof.
  unfold startup. destruct (argc <? 1); [discriminate|].
  destruct (parse_options isspace rand opts options_init) as [o| |] eqn:Ho;
    try discriminate.
  destruct (resolve av _ PATH) as [[[pv psiz1]| |]|] eqn:Hr;
    cbn; try discriminate.
  destruct (init opendir access_X_OK stat realloc pv psiz1) as [ix1| |] eqn:Hi;
    cbn; try discriminate.
  intros [= <- <- <- <-]. cbn [ev last].
  split; [now apply (parse_options_cap isspace rand opts)|].
  split; [now apply (resolve_Done_cap _ _ _ _ _ Hr)|].
  split; [reflexivity|]. split; [|reflexivity].
  now apply (init_Done_nonempty pv psiz1).
Qed.

Lemma option_step_no_fault n optarg o :
  option_step isspace rand n optarg o <> Fault.
Proof.
  unfold option_step, parse_nprompt.
  destruct (byte_of n =? 83); [discriminate|].
  destruct (byte_of n =? 80); [discriminate|].
  destruct (byte_of n =? 115); [discriminate|].
  destruct (byte_of n =? 108); [discriminate|].
  destruct (byte_of n =? 76); [discriminate|].
  destruct (byte_of n =? 114); [discriminate|].
  destruct (byte_of n =? 110); [|discriminate].
  destruct (strtoull isspace optarg) as [[v endp] erange].
  destruct erange; [discriminate|].
  destruct (skip_spaces isspace endp); [|discriminate].
  destruct ((v <? 1) || (INT_MAX <? v)); discriminate.
Qed.

Lemma parse_options_no_fault opts : forall o,
  parse_options isspace rand opts o <> Fault.
Proof.
  induction opts as [|[n optarg] opts IH]; intros o; [discriminate|].
  cbn [parse_options].
  pose proof (option_step_no_fault n optarg o) as Hs.
  destruct (option_step isspace rand n optarg o); cbn;
    [apply IH | discriminate | contradiction].
Qed.

Lemma scan_dir_no_fault dir_path entries : forall ix,
  scan_dir access_X_OK stat realloc dir_path entries ix <> Fault.
Proof.
  induction entries as [|e entries IH]; intros ix; [discriminate|].
  cbn [scan_dir].
  destruct ((strcmp e "." =? 0) || (strcmp e ".." =? 0)); [apply IH|].
  destruct (negb (access_X_OK _)); [apply IH|].
  destruct (stat _); [|apply IH].
  destruct (ix_evsiz ix =? ix_evcap ix); [destruct (realloc _)|]; cbn;
    first [apply IH | discriminate].
Qed.

Lemma scan_paths_no_fault (pv : pv_t) dirs : forall n ix,
  slots_hold pv n dirs ->
  scan_paths opendir access_X_OK stat realloc pv (length dirs) n ix <> Fault.
Proof.
  induction dirs as [|d dirs IH]; intros n ix Hs; [discriminate|].
  apply slots_hold_cons in Hs as [Hn Hs]. cbn [length scan_paths].
  rewrite Hn. destruct (opendir d) as [entries|]; [|now apply IH].
  pose proof (scan_dir_no_fault d entries ix) as Hd.
  destruct (scan_dir _ _ _ d entries ix); cbn;
    [now apply IH | discriminate | contradiction].
Qed.

Lemma init_no_fault (pv : pv_t) psiz dirs :
  search_paths pv psiz = Some <$> dirs ->
  (Z.to_nat psiz <= length pv)%nat ->
  init opendir access_X_OK stat realloc pv psiz <> Fault.
Proof.
  intros Hsp Hlen.
  destruct (search_paths_slots pv psiz dirs Hsp Hlen) as [Hl Hs].
  unfold init. rewrite <- Hl.
  pose proof (scan_paths_no_fault pv dirs 0
                {| ix_ev := []; ix_evcap := 0; ix_totsiz := 0 |} Hs) as Hf.
  destruct (scan_paths _ _ _ _ _ _ _ _) as [ix| |]; cbn;
    [destruct (ix_evsiz ix =? 0); discriminate | discriminate | contradiction].
Qed.

(** X22. With [PATH] set and fewer than 512 paths on the command line,
    [main] reaches the interactive loop or ends with a fatal error: on the
    way it reads no null pointer and writes nothing outside [pv]. *)
Theorem startup_no_fault (argc : Z) (opts : list (ascii * string))
    (av : list string) (p : string) :
  Z.of_nat (length av) < MAXPATHS ->
  exists r,
    startup isspace rand opendir access_X_OK stat realloc argc opts av (Some p)
      = Some r /\ r <> Fault.
Proof.
  intros Hav. unfold startup.
  destruct (argc <? 1); [eexists; split; [reflexivity | discriminate]|].
  pose proof (parse_options_no_fault opts options_init) as Ho.
  destruct (parse_options isspace rand opts options_init) as [o| |];
    [|eexists; split; [reflexivity | discriminate]|contradiction].
  assert (Hres : exists (pv : pv_t) psiz dirs,
             resolve av (negb (o_Pflag o =? 0)) (Some p) = Some (Done (pv, psiz)) /\
             search_paths pv psiz = Some <$> dirs /\
             (Z.to_nat psiz <= length pv)%nat).
  { destruct (negb (o_Pflag o =? 0)) eqn:EP;
      [|destruct av as [|a av'] eqn:Eav].
    - destruct (resolve_args_PATH av true p ltac:(now left) Hav)
        as (pv & st & _ & Hr & Hsp & Hl).
      exists pv, (Z.of_nat (length av + length st)), (av ++ st)%list.
      rewrite Nat2Z.id. auto.
    - destruct (resolve_args_PATH [] false p ltac:(now right) Hav)
        as (pv & st & _ & Hr & Hsp & Hl).
      exists pv, (Z.of_nat (length (@nil string) + length st)), ([] ++ st)%list.
      rewrite Nat2Z.id. auto.
    - pose proof (resolve_args (a :: av') (Some p) ltac:(discriminate)
                    ltac:(unfold MAXPATHS, INT_MAX in *; lia)) as Hr.
      replace (MAXPATHS <? Z.of_nat (length (a :: av'))) with false in Hr
        by (symmetry; apply Z.ltb_ge; lia).
      destruct Hr as (pv & Hr & Hsp & Hl).
      exists pv, (Z.of_nat (length (a :: av'))), (a :: av').
      rewrite Nat2Z.id, Hl. repeat split; try assumption. lia. }
  destruct Hres as (pv & psiz & dirs & -> & Hsp & Hl).
  cbn [mbind option_bind outcome_bind].
  pose proof (init_no_fault pv psiz dirs Hsp Hl) as Hi.
  destruct (init opendir access_X_OK stat realloc pv psiz); cbn;
    eexists; (split; [reflexivity|]); [discriminate | discriminate | contradiction].
Qed.

End StartupProps.

Lemma startup_invariants_witness :
  exists cfg psiz ix g,
    startup isspace_C (λ _, 0%nat) one_dir (λ _, true) (λ _, Some 7) (λ _, true)
      2 [("L"%char, "")] ["/bin"] None = Some (Done (cfg, psiz, ix, g)) /\
    wf_config cfg /\ last g = None.
Proof.
  destruct (startup isspace_C (λ _, 0%nat) one_dir (λ _, true) (λ _, Some 7)
              (λ _, true) 2 [("L"%char, "")] ["/bin"] None)
    as [[[[[cfg psiz] ix] g]| |]|] eqn:E.
  - exists cfg, psiz, ix, g. split; [reflexivity|].
    destruct (startup_invariants _ _ _ _ _ _ _ _ _ _ _ _ _ _ E)
      as (Hc & _ & _ & _ & Hl).
    now split.
  - vm_compute in E. discriminate E.
  - vm_compute in E. discriminate E.
  - vm_compute in E. discriminate E.
Defined.

Lemma startup_no_fault_witness :
  exists r,
    startup isspace_C (λ _, 0%nat) one_dir (λ _, true) (λ _, Some 7) (λ _, true)
      1 [] [] (Some "/sbin:/bin") = Some r /\ r <> Fault.
Proof.
  apply (startup_no_fault isspace_C (λ _, 0%nat) one_dir (λ _, true)
           (λ _, Some 7) (λ _, true) 1 [] [] "/sbin:/bin").
  unfold MAXPATHS. cbn. lia.
Defined.

(** ** bytesfmt, continued *)

Lemma units_lookup j :
  (j <= 6)%nat ->
  exists u, units !! j = Some u /\ (String.length u <= 3)%nat.
Proof.
  intros Hj.
  do 7 (destruct j as [|j]; [eexists; split; [reflexivity | cbn; lia]|]).
  lia.
Qed.

(** X23. The buffer of [bytesfmt] is never too small: for every count the
    result is the value with two decimals, a space and the unit, in full. *)
Theorem bytesfmt_not_truncated (n : Z) :
  exists (j : nat) (u : string),
    (j <= 6)%nat /\ units !! j = Some u /\
    bytesfmt n = fmt_2f (double_of_size_t n # p1024 j) ++ " " ++ u.
Proof.
  destruct (bytesfmt_scale_spec n) as (j & Hj & Hscale & _).
  destruct (units_lookup j Hj) as (u & Hu & Hlen).
  exists j, u. split; [assumption|]. split; [assumption|].
  unfold bytesfmt. rewrite Hscale, Nat2Z.id, Hu. cbn [default].
  unfold snprintf_s. apply truncate_short.
  rewrite !length_append.
  pose proof (fmt_2f_length (double_of_size_t n # p1024 j)).
  cbn [Nat.pred String.length]. lia.
Qed.

Lemma round_half_even_Z (a : Z) : round_half_even (inject_Z a) = a.
Proof.
  unfold round_half_even, inject_Z, Qfloor, Qminus, Qplus, Qopp, Qcompare.
  cbn [Qnum Qden]. rewrite Z.div_1_r.
  replace ((a * 1 + - a * 1) * 2)%Z with 0 by lia. reflexivity.
Qed.

Lemma utoa_append k : forall z acc s,
  (utoa k z acc ++ s)%string = utoa k z (acc ++ s).
Proof.
  induction k as [|k IH]; intros z acc s; [reflexivity|].
  cbn [utoa]. destruct (z / 10 =? 0); [reflexivity|].
  now rewrite IH.
Qed.

Lemma fmt_2f_Z (a : Z) :
  0 <= a -> fmt_2f (a # 1) = utoa 20 a ".00".
Proof.
  intros Ha. unfold fmt_2f.
  assert (H : ((a # 1) * inject_Z 100)%Q = inject_Z (a * 100)).
  { unfold Qmult, inject_Z. cbn [Qnum Qden]. reflexivity. }
  rewrite H, round_half_even_Z.
  rewrite Z.div_mul by lia.
  replace (a * 100 / 10) with (a * 10).
  2:{ replace (a * 100) with (a * 10 * 10) by lia. now rewrite Z.div_mul by lia. }
  replace (a * 10 mod 10) with 0 by (symmetry; apply Z.mod_mul; lia).
  replace (a * 100 mod 10) with 0.
  2:{ replace (a * 100) with (a * 10 * 10) by lia. symmetry. apply Z.mod_mul. lia. }
  reflexivity.
Qed.

(** X24. A count below 1024 is shown as it is: its decimal digits, then
    [.00 B]. *)
Theorem bytesfmt_small (n : Z) :
  0 <= n < 1024 ->
  bytesfmt n = utoa 20 n ".00 B".
Proof.
  intros Hn.
  destruct (bytesfmt_scale_spec n) as (j & Hj & Hscale & Hge & Hlt).
  assert (Hd : double_of_size_t n = n).
  { unfold double_of_size_t.
    replace (n <? 2 ^ 53) with true; [reflexivity|].
    symmetry. apply Z.ltb_lt. change (2 ^ 53) with 9007199254740992. lia. }
  rewrite Hd in *.
  assert (j = 0%nat) as ->.
  { destruct j as [|j]; [reflexivity|].
    specialize (Hge 0%nat ltac:(lia)). change (1024 ^ Z.of_nat 1) with 1024 in Hge.
    lia. }
  unfold bytesfmt. rewrite Hscale. cbn [Z.of_nat Z.to_nat p1024].
  change (default "" (units !! 0%nat)) with "B".
  rewrite fmt_2f_Z by lia. rewrite utoa_append.
  unfold snprintf_s. apply truncate_short.
  etransitivity; [apply utoa_length|]. cbn. lia.
Qed.

Lemma bytesfmt_small_witness : bytesfmt 1023 = "1023.00 B".
Proof.
  refine (eq_trans (bytesfmt_small 1023 _) _).
  - lia.
  - vm_compute. reflexivity.
Defined.
